(** * go-attestation, package [attest]: TPM 2.0 helpers of [attest/tpm.go]

    A shallow embedding of the functions of [attest/tpm.go]
    ([readTPM2VendorAttributes], [ParseEKCertificate], [intelEKURL],
    [readEKCertFromNVRAM20], [quote20], [readAllPCRs20], [LoadAIK]) and of the
    package-level key templates, together with the properties the design
    document states about them.

    Conventions.
    - Go integers are [Z]; every place where Go arithmetic wraps around is
      written out ([uint16], [uint32]).
    - A Go [[]byte] and a Go [string] are both [list byte].
    - A Go function returning [(v, err)] returns a pair whose second component
      is [option] of the error; a run-time panic is the outcome [Panicked].
    - Commands sent over the [io.ReadWriter] are transitions of an abstract
      chip; every exchange is appended to a transcript. *)

From Stdlib Require Import ZArith List String Ascii Strings.Byte Lia Bool.
From stdpp Require Import base option list list_numbers gmap fin_sets strings.

Import ListNotations.
Local Open Scope Z_scope.
#[local] Set Warnings "-clear-no-such-hyp".


Abbreviation bytes := (list byte).

(** ** The fragment of Go the package relies on *)

Module Go.

(** Why a function stopped with a run-time panic. *)
Inductive PanicReason :=
| SliceBoundsOutOfRange (low high cap : Z)
| IndexOutOfRange (index len : Z)
| NilDereference.

Inductive Outcome (A : Type) :=
| Returned (a : A)
| Panicked (why : PanicReason).
Arguments Returned {A} a.
Arguments Panicked {A} why.

Definition obind {A B} (o : Outcome A) (k : A -> Outcome B) : Outcome B :=
  match o with
  | Returned a => k a
  | Panicked why => Panicked why
  end.

Definition panics {A} (o : Outcome A) : Prop :=
  match o with Panicked _ => True | Returned _ => False end.

(** Conversions between [byte] and the integers. [byte_of_Z] is Go's
    [byte(x)]: it keeps the low eight bits. *)
Definition byte_to_Z (b : byte) : Z := Z.of_N (Byte.to_N b).
Definition byte_of_Z (z : Z) : byte :=
  default x00 (Byte.of_N (Z.to_N (z mod 256))).

Definition uint16 (z : Z) : Z := z mod 2 ^ 16.
Definition uint32 (z : Z) : Z := z mod 2 ^ 32.

Definition len {A} (s : list A) : Z := Z.of_nat (length s).

(** [s[low:high]] on a slice whose capacity equals its length. *)
Definition slice {A} (s : list A) (low high : Z) : Outcome (list A) :=
  if (0 <=? low) && (low <=? high) && (high <=? len s)
  then Returned (take (Z.to_nat (high - low)) (drop (Z.to_nat low) s))
  else Panicked (SliceBoundsOutOfRange low high (len s)).

(** [s[i]]. *)
Definition index {A} (s : list A) (i : Z) : Outcome A :=
  if 0 <=? i then
    match s !! Z.to_nat i with
    | Some a => Returned a
    | None => Panicked (IndexOutOfRange i (len s))
    end
  else Panicked (IndexOutOfRange i (len s)).

(** [*p] for a pointer that may be nil. *)
Definition deref {A} (p : option A) : Outcome A :=
  match p with
  | Some a => Returned a
  | None => Panicked NilDereference
  end.

Definition byte_eqb (a b : byte) : bool := Byte.eqb a b.

(** [bytes.Equal]. *)
Fixpoint bytes_Equal (a b : bytes) : bool :=
  match a, b with
  | [], [] => true
  | x :: a', y :: b' => byte_eqb x y && bytes_Equal a' b'
  | _, _ => false
  end.

(** [binary.BigEndian.Uint16(b)]: [uint16(b[1]) | uint16(b[0])<<8], after
    the bounds check [_ = b[1]]. *)
Definition BigEndian_Uint16 (b : bytes) : Outcome Z :=
  obind (index b 1) (fun b1 =>
  obind (index b 0) (fun b0 =>
  Returned (Z.lor (byte_to_Z b1) (Z.shiftl (byte_to_Z b0) 8)))).

(** [binary.BigEndian.PutUint16] and [binary.BigEndian.PutUint32], as the
    bytes they store. *)
Definition BigEndian_PutUint16 (v : Z) : bytes :=
  [ byte_of_Z (Z.shiftr v 8); byte_of_Z v ].
Definition BigEndian_PutUint32 (v : Z) : bytes :=
  [ byte_of_Z (Z.shiftr v 24); byte_of_Z (Z.shiftr v 16);
    byte_of_Z (Z.shiftr v 8); byte_of_Z v ].

(** *** Integer to string conversion

    [string(x)] for an integer [x] is the UTF-8 encoding of the code point
    [x]; a value that is no valid code point gives U+FFFD. The two
    definitions follow [runtime.intstring] and [runtime.encoderune]. *)
Definition RuneError : Z := 0xFFFD.
Definition MaxRune : Z := 0x10FFFF.
Definition surrogateMin : Z := 0xD800.
Definition surrogateMax : Z := 0xDFFF.

Definition encode3 (r : Z) : bytes :=
  [ byte_of_Z (Z.lor 0xE0 (Z.shiftr r 12));
    byte_of_Z (Z.lor 0x80 (Z.land (Z.shiftr r 6) 0x3F));
    byte_of_Z (Z.lor 0x80 (Z.land r 0x3F)) ].

Definition encoderune (r : Z) : bytes :=
  let i := uint32 r in
  if i <=? 0x7F then [ byte_of_Z r ]
  else if i <=? 0x7FF then
    [ byte_of_Z (Z.lor 0xC0 (Z.shiftr r 6));
      byte_of_Z (Z.lor 0x80 (Z.land r 0x3F)) ]
  else if (MaxRune <? i) || ((surrogateMin <=? i) && (i <=? surrogateMax))
  then encode3 RuneError
  else if i <=? 0xFFFF then encode3 r
  else
    [ byte_of_Z (Z.lor 0xF0 (Z.shiftr r 18));
      byte_of_Z (Z.lor 0x80 (Z.land (Z.shiftr r 12) 0x3F));
      byte_of_Z (Z.lor 0x80 (Z.land (Z.shiftr r 6) 0x3F));
      byte_of_Z (Z.lor 0x80 (Z.land r 0x3F)) ].

(** [v] is the converted integer widened to [int64]. *)
Definition intstring (v : Z) : bytes :=
  let v := if (- 2 ^ 31 <=? v) && (v <? 2 ^ 31) then v else RuneError in
  encoderune v.

(** *** [strings.Trim] with a cutset of one ASCII byte

    [strings.Trim(s, cutset)] with [len(cutset) == 1] and an ASCII byte is
    [trimLeftByte(trimRightByte(s, c), c)]. *)
Fixpoint trimLeftByte (s : bytes) (c : byte) : bytes :=
  match s with
  | [] => []
  | b :: s' => if byte_eqb b c then trimLeftByte s' c else s
  end.

Definition trimRightByte (s : bytes) (c : byte) : bytes :=
  rev (trimLeftByte (rev s) c).

Definition Trim1 (s : bytes) (c : byte) : bytes :=
  trimLeftByte (trimRightByte s c) c.

End Go.
Export Go.

(** ** What the package uses of [github.com/google/go-tpm/tpm2]

    The numeric values are those of the TPM 2.0 library specification, part 2
    (TPM_ALG_ID, TPMA_OBJECT, TPM_CAP, TPM_RH). *)

Module tpm2.

Definition AlgRSA : Z := 0x0001.
Definition AlgAES : Z := 0x0006.
Definition AlgSHA256 : Z := 0x000B.
Definition AlgNull : Z := 0x0010.
Definition AlgRSASSA : Z := 0x0014.
Definition AlgCFB : Z := 0x0043.

Definition FlagFixedTPM : Z := 0x00000002.
Definition FlagFixedParent : Z := 0x00000010.
Definition FlagSensitiveDataOrigin : Z := 0x00000020.
Definition FlagUserWithAuth : Z := 0x00000040.
Definition FlagAdminWithPolicy : Z := 0x00000080.
Definition FlagNoDA : Z := 0x00000400.
Definition FlagRestricted : Z := 0x00010000.
Definition FlagDecrypt : Z := 0x00020000.
Definition FlagSign : Z := 0x00040000.

Definition lor_all (flags : list Z) : Z := foldr Z.lor 0 flags.

Definition FlagSignerDefault : Z :=
  lor_all [FlagSign; FlagRestricted; FlagFixedTPM; FlagFixedParent;
           FlagSensitiveDataOrigin; FlagUserWithAuth].
Definition FlagStorageDefault : Z :=
  lor_all [FlagDecrypt; FlagRestricted; FlagFixedTPM; FlagFixedParent;
           FlagSensitiveDataOrigin; FlagUserWithAuth].

Definition CapabilityTPMProperties : Z := 6.
Definition HandleOwner : Z := 0x40000001.

Record SigScheme := { sig_Alg : Z; sig_Hash : Z }.
Record SymScheme := { sym_Alg : Z; sym_KeyBits : Z; sym_Mode : Z }.

(** [tpm2.RSAParams] and [tpm2.Public], with the fields the package sets;
    a field a composite literal leaves out has its zero value. *)
Record RSAParams := {
  Symmetric : option SymScheme;
  Sign : option SigScheme;
  KeyBits : Z;
  ModulusRaw : bytes }.

Record Public := {
  Type_ : Z;
  NameAlg : Z;
  Attributes : Z;
  AuthPolicy : bytes;
  RSAParameters : option RSAParams }.

Record PCRSelection := { Hash : Z; PCRs : list Z }.

(** An element of the [[]interface{}] that [GetCapability] returns. *)
Inductive Capability :=
| TaggedProperty (Tag Value : Z)
| OtherCapability (typeName : bytes).

Record SignatureRSA := { HashAlg : Z; Signature_ : bytes }.
Record Signature := { Alg : Z; RSA : option SignatureRSA }.

End tpm2.

(** ** The package *)

Module attest.
Import tpm2.

Definition tpmPtManufacturer : Z := 0x00000100 + 5.
Definition tpmPtVendorString : Z := 0x00000100 + 6.
Definition tpmPtFwVersion1 : Z := 0x00000100 + 11.
Definition nvramCertIndex : Z := 0x1c00002.
Definition commonSrkEquivalentHandle : Z := 0x81000001.
Definition commonEkEquivalentHandle : Z := 0x81010001.

(** *** Package-level variables *)

Record Globals := {
  aikTemplate : Public;
  defaultSRKTemplate : Public;
  defaultEKTemplate : Public }.

(** The values the [var ( ... )] block gives them when the package is
    initialised. *)
Definition init_globals : Globals := {|
  aikTemplate := {|
    Type_ := AlgRSA;
    NameAlg := AlgSHA256;
    Attributes := FlagSignerDefault;
    AuthPolicy := [];
    RSAParameters := Some {|
      Symmetric := None;
      Sign := Some {| sig_Alg := AlgRSASSA; sig_Hash := AlgSHA256 |};
      KeyBits := 2048;
      ModulusRaw := [] |} |};
  defaultSRKTemplate := {|
    Type_ := AlgRSA;
    NameAlg := AlgSHA256;
    Attributes := Z.lor FlagStorageDefault FlagNoDA;
    AuthPolicy := [];
    RSAParameters := Some {|
      Symmetric := Some {| sym_Alg := AlgAES; sym_KeyBits := 128;
                           sym_Mode := AlgCFB |};
      Sign := None;
      KeyBits := 2048;
      ModulusRaw := replicate 256 x00 |} |};
  defaultEKTemplate := {|
    Type_ := AlgRSA;
    NameAlg := AlgSHA256;
    Attributes := lor_all [FlagFixedTPM; FlagFixedParent;
                           FlagSensitiveDataOrigin; FlagAdminWithPolicy;
                           FlagRestricted; FlagDecrypt];
    AuthPolicy := [ x83; x71; x97; x67; x44; x84;
                    xb3; xf8; x1a; x90; xcc; x8d;
                    x46; xa5; xd7; x24; xfd; x52;
                    xd7; x6e; x06; x52; x0b; x64;
                    xf2; xa1; xda; x1b; x33; x14;
                    x69; xaa ];
    RSAParameters := Some {|
      Symmetric := Some {| sym_Alg := AlgAES; sym_KeyBits := 128;
                           sym_Mode := AlgCFB |};
      Sign := None;
      KeyBits := 2048;
      ModulusRaw := replicate 256 x00 |} |} |}.

(** *** Collaborators

    [Libraries] are the pure functions of other packages; [lib_error] is
    the type of the [error] values they return. *)
Class Libraries := {
  lib_error : Type;
  Certificate : Type;
  x509_ParseCertificate : bytes -> option Certificate * option lib_error;
  x509_IsFatal : lib_error -> bool;
  (** [asn1.UnmarshalWithParams(b, &cert, "lax")] for
      [cert struct{ Raw asn1.RawContent }]: the value left in [cert.Raw] and
      the error. *)
  asn1_UnmarshalWithParams_lax : bytes -> bytes * option lib_error;
  (** [tpmutil.Pack(alg, hashAlg, signature)]. *)
  tpmutil_Pack : Z -> Z -> bytes -> bytes * option lib_error;
  sha256_Sum256 : bytes -> bytes }.

(** The chip behind the [io.ReadWriter]: one transition for each go-tpm
    command the package issues. *)
Class Chip `{Libraries} := {
  chip_state : Type;
  tpm2_GetCapability :
    chip_state -> Z -> Z -> Z ->
    chip_state * (list Capability * bool * option lib_error);
  tpm2_NVReadEx :
    chip_state -> Z -> Z -> bytes -> Z ->
    chip_state * (bytes * option lib_error);
  tpm2_Quote :
    chip_state -> Z -> bytes -> bytes -> bytes -> PCRSelection -> Z ->
    chip_state * (bytes * option Signature * option lib_error);
  tpm2_ReadPCRs :
    chip_state -> PCRSelection ->
    chip_state * (gmap Z bytes * option lib_error) }.


(** *** Errors the package builds

    One constructor for each [fmt.Errorf] of the file, carrying the values
    the format string prints; [ErrLibrary] is an error of a library handed
    back unchanged. *)
Inductive Error `{Libraries} :=
| ErrGetCapabilityVendorString (n : Z) (err : lib_error)
| ErrGetCapabilityManufacturer (err : lib_error)
| ErrGetCapabilityFwVersion (err : lib_error)
| ErrCapabilityType (got : Capability)
| ErrNvramHeader (size certLen : Z)
| ErrAsn1Unmarshal (err : lib_error) (wasWrapped : bool)
| ErrX509ParseCertificate (err : lib_error)
| ErrReadingEKCert (err : lib_error)
| ErrReadPCRs (sel : PCRSelection) (err : lib_error)
| ErrFailedToReadAllPCRs (n : Z)
| ErrLibrary (err : lib_error).

(** *** [ParseEKCertificate] *)

Section Certificates.
Context `{Libraries}.

(** The block that looks for the prefix of a certificate stored in NVRAM
    (TCG PC Specific Implementation, section 7.3.2) and unwraps it:
    [inl (ekCert, wasWrapped)] are the two variables after the block,
    [inr] is its [return nil, err]. [certLen] is a [uint16], so both
    [certLen+5] and [5+certLen] are computed modulo 2^16. *)
Definition nvramUnwrap (ekCert : bytes) : Outcome (bytes * bool + Error) :=
  if 5 <? len ekCert then
    obind (slice ekCert 0 3) (fun tag =>
    if bytes_Equal tag [x10; x01; x00] then
      obind (slice ekCert 3 5) (fun lenField =>
      obind (BigEndian_Uint16 lenField) (fun certLen =>
      if len ekCert <? uint16 (certLen + 5) then
        Returned (inr (ErrNvramHeader (len ekCert) certLen))
      else
        obind (slice ekCert 5 (uint16 (5 + certLen))) (fun payload =>
        Returned (inl (payload, true)))))
    else Returned (inl (ekCert, false)))
  else Returned (inl (ekCert, false)).

(** The rest of the function, on the two variables the block leaves. *)
Definition parseUnwrapped (ekCert : bytes) (wasWrapped : bool)
    : option Certificate * option Error :=
  match x509_ParseCertificate ekCert with
  | (c, None) => (c, None)
  | (_, Some _) =>
    let '(Raw, err) := asn1_UnmarshalWithParams_lax ekCert in
    let retry :=
      match x509_ParseCertificate Raw with
      | (c, None) => (c, None)
      | (c, Some e) =>
        if x509_IsFatal e then (None, Some (ErrX509ParseCertificate e))
        else (c, None)
      end in
    match err with
    | None => retry
    | Some e =>
      if x509_IsFatal e then (None, Some (ErrAsn1Unmarshal e wasWrapped))
      else retry
    end
  end.

Definition ParseEKCertificate (ekCert : bytes)
    : Outcome (option Certificate * option Error) :=
  obind (nvramUnwrap ekCert) (fun r =>
  match r with
  | inr e => Returned (None, Some e)
  | inl (ekCert, wasWrapped) => Returned (parseUnwrapped ekCert wasWrapped)
  end).

(** *** [intelEKURL] *)

(** [rsa.PublicKey]. *)
Record PublicKey := { N : Z; E : Z }.

(** [big.Int.Bytes]: the absolute value, big-endian, without leading
    zero bytes. *)
Fixpoint be_bytes (n : nat) (x : Z) : bytes :=
  match n with
  | O => []
  | S n' => be_bytes n' (x / 256) ++ [byte_of_Z x]
  end.

Definition big_Int_Bytes (x : Z) : bytes :=
  let a := Z.abs x in
  if a =? 0 then [] else be_bytes (Z.to_nat (Z.log2 a / 8 + 1)) a.

(** A [hash.Hash] made by [sha256.New]: [Write] adds to what was written,
    [Sum(b)] appends the digest of it to [b]. *)
Record digest := { written : bytes }.
Definition sha256_New : digest := {| written := [] |}.
Definition hash_Write (d : digest) (p : bytes) : digest :=
  {| written := written d ++ p |}.
Definition hash_Sum (d : digest) (b : bytes) : bytes :=
  b ++ sha256_Sum256 (written d).

(** [base64.URLEncoding.EncodeToString]: the URL alphabet of RFC 4648,
    with [=] padding. *)
Definition encodeURL : bytes :=
  list_byte_of_string
    "ABCDEFGHIJKLMNOPQRSTUVWXYZabcdefghijklmnopqrstuvwxyz0123456789-_".

Definition sextet (v : Z) (shift : Z) : byte :=
  default x00 (encodeURL !! Z.to_nat (Z.land (Z.shiftr v shift) 0x3F)).

Definition padChar : byte := "="%byte.

Fixpoint EncodeToString (src : bytes) : bytes :=
  match src with
  | [] => []
  | [a] =>
    let v := Z.shiftl (byte_to_Z a) 16 in
    [sextet v 18; sextet v 12; padChar; padChar]
  | [a; b] =>
    let v := Z.lor (Z.shiftl (byte_to_Z a) 16) (Z.shiftl (byte_to_Z b) 8) in
    [sextet v 18; sextet v 12; sextet v 6; padChar]
  | a :: b :: c :: rest =>
    let v := Z.lor (Z.lor (Z.shiftl (byte_to_Z a) 16)
                          (Z.shiftl (byte_to_Z b) 8)) (byte_to_Z c) in
    [sextet v 18; sextet v 12; sextet v 6; sextet v 0]
    ++ EncodeToString rest
  end.

Definition manufacturerIntel : bytes := list_byte_of_string "Intel".
Definition intelEKCertServiceURL : bytes :=
  list_byte_of_string "https://ekop.intel.com/ekcertservice/".

Definition intelEKURL (ekPub : PublicKey) : bytes :=
  let pubHash := sha256_New in
  let pubHash := hash_Write pubHash (big_Int_Bytes (N ekPub)) in
  let pubHash := hash_Write pubHash [x01; x00; x01] in
  intelEKCertServiceURL ++ EncodeToString (hash_Sum pubHash []).

End Certificates.

(** *** Exchanges with the chip, and the state a call runs in *)

Inductive Exchange `{Libraries} :=
| XGetCapability (cap count property : Z)
    (resp : list Capability * bool * option lib_error)
| XNVReadEx (index authHandle : Z) (password : bytes) (blockSize : Z)
    (resp : bytes * option lib_error)
| XQuote (signingHandle : Z) (parentPassword ownerPassword toQuote : bytes)
    (sel : PCRSelection) (sigAlg : Z)
    (resp : bytes * option Signature * option lib_error)
| XReadPCRs (sel : PCRSelection) (resp : gmap Z bytes * option lib_error).

Record World `{Chip} := {
  pkg : Globals;
  chip : chip_state;
  transcript : list Exchange }.

Definition M `{Chip} (A : Type) : Type := World -> Outcome A * World.

Definition ret `{Chip} {A} (a : A) : M A := fun w => (Returned a, w).

Definition bind `{Chip} {A B} (m : M A) (k : A -> M B) : M B :=
  fun w =>
    match m w with
    | (Returned a, w') => k a w'
    | (Panicked why, w') => (Panicked why, w')
    end.

Definition lift `{Chip} {A} (o : Outcome A) : M A := fun w => (o, w).

Notation "'let*' x ':=' m 'in' k" := (bind m (fun x => k))
  (at level 10, x pattern, m at level 100, k at level 200).

Section Commands.
Context `{Chip}.

Definition exchange {A} (step : chip_state -> chip_state * A)
    (record : A -> Exchange) : M A :=
  fun w =>
    let '(c, resp) := step (chip w) in
    (Returned resp,
     {| pkg := pkg w; chip := c;
        transcript := transcript w ++ [record resp] |}).

Definition cmdGetCapability (cap count property : Z) :=
  exchange (fun c => tpm2_GetCapability c cap count property)
           (XGetCapability cap count property).

Definition cmdNVReadEx (index authHandle : Z) (password : bytes)
    (blockSize : Z) :=
  exchange (fun c => tpm2_NVReadEx c index authHandle password blockSize)
           (XNVReadEx index authHandle password blockSize).

Definition cmdQuote (signingHandle : Z)
    (parentPassword ownerPassword toQuote : bytes) (sel : PCRSelection)
    (sigAlg : Z) :=
  exchange
    (fun c => tpm2_Quote c signingHandle parentPassword ownerPassword
                         toQuote sel sigAlg)
    (XQuote signingHandle parentPassword ownerPassword toQuote sel sigAlg).

Definition cmdReadPCRs (sel : PCRSelection) :=
  exchange (fun c => tpm2_ReadPCRs c sel) (XReadPCRs sel).

(** *** [readTPM2VendorAttributes] *)

Record tpm20Info := {
  vendor : bytes;
  manufacturer : Z;
  fwMajor : Z;
  fwMinor : Z }.

Definition tpm20Info_zero : tpm20Info :=
  {| vendor := []; manufacturer := 0; fwMajor := 0; fwMinor := 0 |}.

(** The four octets one round of the loop appends to [vendorInfo]. *)
Definition vendorChunk (Value : Z) : bytes :=
  intstring (Z.land Value 0xFF000000) ++ intstring (Z.land Value 0xFF0000)
  ++ intstring (Z.land Value 0xFF00) ++ intstring (Z.land Value 0xFF).

(** [for i := 0; i < 4; i++ { ... }], over the values of [i] still to
    come; [inr] is the early [return tpm20Info{}, err]. *)
Fixpoint vendorLoop (todo : list Z) (vendorInfo : bytes)
    : M (bytes + Error) :=
  match todo with
  | [] => ret (inl vendorInfo)
  | i :: rest =>
    let* (caps, _, err) :=
      cmdGetCapability CapabilityTPMProperties 1
                    (uint32 (tpmPtVendorString + uint32 i)) in
    match err with
    | Some e => ret (inr (ErrGetCapabilityVendorString (i + 1) e))
    | None =>
      let* c := lift (index caps 0) in
      match c with
      | TaggedProperty _ Value =>
        vendorLoop rest (vendorInfo ++ vendorChunk Value)
      | _ => ret (inr (ErrCapabilityType c))
      end
    end
  end.

Definition readTPM2VendorAttributes : M (tpm20Info * option Error) :=
  let* r := vendorLoop (seqZ 0 4) [] in
  match r with
  | inr e => ret (tpm20Info_zero, Some e)
  | inl vendorInfo =>
    let* (caps, _, err) :=
      cmdGetCapability CapabilityTPMProperties 1 tpmPtManufacturer in
    match err with
    | Some e => ret (tpm20Info_zero, Some (ErrGetCapabilityManufacturer e))
    | None =>
      let* c := lift (index caps 0) in
      match c with
      | TaggedProperty _ manu =>
        let* (caps, _, err) :=
          cmdGetCapability CapabilityTPMProperties 1 tpmPtFwVersion1 in
        match err with
        | Some e =>
          ret (tpm20Info_zero, Some (ErrGetCapabilityFwVersion e))
        | None =>
          let* c := lift (index caps 0) in
          match c with
          | TaggedProperty _ fw =>
            ret ({| vendor := Trim1 vendorInfo x00;
                    manufacturer := manu;
                    fwMajor := Z.shiftr (Z.land fw 0xffff0000) 16;
                    fwMinor := Z.land fw 0x0000ffff |}, None)
          | _ => ret (tpm20Info_zero, Some (ErrCapabilityType c))
          end
        end
      | _ => ret (tpm20Info_zero, Some (ErrCapabilityType c))
      end
    end
  end.

(** *** [readEKCertFromNVRAM20] *)

Definition readEKCertFromNVRAM20
    : M (option Certificate * option Error) :=
  let* (ekCert, err) := cmdNVReadEx nvramCertIndex HandleOwner [] 0 in
  match err with
  | Some e => ret (None, Some (ErrReadingEKCert e))
  | None => lift (ParseEKCertificate ekCert)
  end.

(** *** [quote20] *)

Inductive TPMVersion := TPMVersion12 | TPMVersion20.

Record Quote := {
  q_Version : TPMVersion;
  q_Quote : bytes;
  q_Signature : bytes }.

(** [for pcr := 0; pcr < numPCRs; pcr++ { sel.PCRs = append(sel.PCRs, pcr) }] *)
Definition allPCRs (numPCRs : Z) : list Z :=
  fold_left (fun PCRs pcr => PCRs ++ [pcr]) (seqZ 0 numPCRs) [].

Definition quote20 (aikHandle : Z) (hashAlg : Z) (nonce : bytes)
    : M (option Quote * option Error) :=
  let numPCRs := 24 in
  let sel := {| Hash := hashAlg; PCRs := allPCRs numPCRs |} in
  let* (quote, sig, err) := cmdQuote aikHandle [] [] nonce sel AlgNull in
  match err with
  | Some e => ret (None, Some (ErrLibrary e))
  | None =>
    let* s := lift (deref sig) in
    let* rsa := lift (deref (RSA s)) in
    let '(rawSig, err) :=
      tpmutil_Pack (Alg s) (HashAlg rsa) (Signature_ rsa) in
    ret (Some {| q_Version := TPMVersion20;
                 q_Quote := quote;
                 q_Signature := rawSig |},
         option_map ErrLibrary err)
  end.

(** *** [readAllPCRs20] *)

(** The selection one round builds: the indices below [numPCRs] that
    [out] has no value for, in increasing order. *)
Definition missingPCRs (numPCRs : Z) (out : gmap Z bytes) : list Z :=
  fold_left
    (fun PCRs pcr =>
       match out !! uint32 pcr with
       | Some _ => PCRs
       | None => PCRs ++ [pcr]
       end)
    (seqZ 0 numPCRs) [].

(** [for pcr, digest := range ret { out[uint32(pcr)] = digest }]. The
    keys of [ret] are Go [int]s. Go visits the entries in no fixed order;
    the order only shows when two keys agree modulo 2^32. *)
Definition keepPCRs (ret out : gmap Z bytes) : gmap Z bytes :=
  map_fold (fun pcr digest out => <[uint32 pcr := digest]> out) out ret.

(** [for i := 0; i < numPCRs; i++ { ... }] with [rounds] iterations left;
    [inr] is the [return nil, err] inside the loop, and reaching
    [len(out) == numPCRs] is the [break]. *)
Fixpoint readRounds (rounds : nat) (numPCRs : Z) (alg : Z)
    (out : gmap Z bytes) : M (gmap Z bytes + Error) :=
  match rounds with
  | O => ret (inl out)
  | S rounds' =>
    let sel := {| Hash := alg; PCRs := missingPCRs numPCRs out |} in
    let* (r, err) := cmdReadPCRs sel in
    match err with
    | Some e => ret (inr (ErrReadPCRs sel e))
    | None =>
      let out := keepPCRs r out in
      if Z.of_nat (size out) =? numPCRs then ret (inl out)
      else readRounds rounds' numPCRs alg out
    end
  end.

Definition readAllPCRs20 (alg : Z)
    : M (option (gmap Z bytes) * option Error) :=
  let numPCRs := 24 in
  let* r := readRounds (Z.to_nat numPCRs) numPCRs alg ∅ in
  match r with
  | inr e => ret (None, Some e)
  | inl out =>
    if negb (Z.of_nat (size out) =? numPCRs)
    then ret (None, Some (ErrFailedToReadAllPCRs (Z.of_nat (size out))))
    else ret (Some out, None)
  end.

End Commands.

(** *** [LoadAIK]

    [LoadAIK] hands its argument to the method [loadAIK] and returns what
    that method returns. [loadAIK], the types [TPM] and [AIK], and
    [AIK.Serialize] are declared in other files of the package. The design
    document calls the serialized key an opaque container and gives no layout
    for it, so [loadAIK] is a parameter of [LoadAIK] here. *)

(** Modelled from the spec: the session type [TPM], of which only the
    version "fixed at open time" matters for loading a key. *)
Record TPM := { version : TPMVersion }.

(** Modelled from the spec: [AikInfo], the "tagged union over TPM version:
    variant TPM20 = {public_blob, creation_data, attestation_data,
    signature_data}; variant TPM12 = {public_blob, auxiliary_data}". *)
Inductive AikInfo :=
| TPM20 (public_blob creation_data attestation_data signature_data : bytes)
| TPM12 (public_blob auxiliary_data : bytes).

(** Modelled from the spec: the lifecycle "Created, Loaded, Closed" of an
    [AIK], and the [AIK] type as the key's parameters with its state. *)
Inductive Lifecycle := Created | Loaded | Closed.
Record AIK := { info : AikInfo; state : Lifecycle }.

(** Modelled from the spec: the error "FormatError" of a blob that cannot be
    loaded. *)
Inductive LoadError := FormatError.

Section LoadAIK.

(** The method [loadAIK] of another file of the package. *)
Variable loadAIK : TPM -> bytes -> option AIK * option LoadError.

(** The function of this file. *)
Definition LoadAIK (t : TPM) (opaqueBlob : bytes)
    : option AIK * option LoadError :=
  loadAIK t opaqueBlob.

End LoadAIK.

End attest.

(** ** A small platform to run the package on

    A DER-like certificate format with one-byte lengths, a packer with 16-bit
    sizes, and a chip whose behaviour is set by its state. *)

Module Bench.
Import tpm2 attest.

Inductive BenchError :=
| SyntaxError
| TrailingData
| UnhandledExtension
| SizeTooLarge
| CommandFailed.

(** [x30 len content]: a certificate whose content is [content]. *)
Definition parseStrict (b : bytes) : option bytes * option BenchError :=
  match b with
  | x30 :: l :: content =>
    if len content =? byte_to_Z l then (Some content, None)
    else if byte_to_Z l <? len content then (None, Some TrailingData)
    else (None, Some SyntaxError)
  | _ => (None, Some SyntaxError)
  end.

Definition unmarshalLax (b : bytes) : bytes * option BenchError :=
  match b with
  | x30 :: l :: rest =>
    if byte_to_Z l <=? len rest
    then (x30 :: l :: take (Z.to_nat (byte_to_Z l)) rest, None)
    else ([], Some SyntaxError)
  | _ => ([], Some SyntaxError)
  end.

Definition isFatal (e : BenchError) : bool :=
  match e with
  | UnhandledExtension => false
  | _ => true
  end.

Definition pack (alg hashAlg : Z) (signature : bytes)
    : bytes * option BenchError :=
  if len signature <? 2 ^ 16
  then (BigEndian_PutUint16 alg ++ BigEndian_PutUint16 hashAlg
        ++ BigEndian_PutUint16 (len signature) ++ signature, None)
  else ([], Some SizeTooLarge).

#[export] Instance benchLibraries : Libraries := {|
  lib_error := BenchError;
  Certificate := bytes;
  x509_ParseCertificate := parseStrict;
  x509_IsFatal := isFatal;
  asn1_UnmarshalWithParams_lax := unmarshalLax;
  tpmutil_Pack := pack;
  sha256_Sum256 := fun b => replicate 32 (byte_of_Z (len b)) |}.

(** The same parsers in a library none of whose errors is fatal. *)
Definition tolerantLibraries : Libraries := {|
  lib_error := BenchError;
  Certificate := bytes;
  x509_ParseCertificate := parseStrict;
  x509_IsFatal := fun _ => false;
  asn1_UnmarshalWithParams_lax := unmarshalLax;
  tpmutil_Pack := pack;
  sha256_Sum256 := fun b => replicate 32 (byte_of_Z (len b)) |}.

(** The state of the bench chip: how many registers one [ReadPCRs] answers
    at most, how long its signatures are, what its NVRAM index holds, and
    how many commands it has served. *)
Record BenchChip := {
  perRead : nat;
  sigLen : Z;
  nvram : bytes;
  served : nat }.

Definition tick (c : BenchChip) : BenchChip :=
  {| perRead := perRead c; sigLen := sigLen c; nvram := nvram c;
     served := S (served c) |}.

(** Vendor string "INTC", manufacturer "INTC", firmware 11.8. *)
Definition property (p : Z) : Z :=
  if p =? tpmPtVendorString then 0x494E5443
  else if p =? tpmPtManufacturer then 0x494E5443
  else if p =? tpmPtFwVersion1 then 0x000B0008
  else 0.

Definition digestOf (alg pcr : Z) : bytes :=
  replicate (if alg =? AlgSHA256 then 32 else 20) (byte_of_Z pcr).

#[export] Instance benchChip : Chip := {|
  chip_state := BenchChip;
  tpm2_GetCapability := fun c cap count p =>
    (tick c, ([TaggedProperty p (property p)], false, None));
  tpm2_NVReadEx := fun c index authHandle password blockSize =>
    if index =? nvramCertIndex then (tick c, (nvram c, None))
    else (tick c, ([], Some CommandFailed));
  tpm2_Quote := fun c h parentPassword ownerPassword toQuote sel sigAlg =>
    (tick c,
     (toQuote ++ map byte_of_Z (PCRs sel),
      Some {| Alg := AlgRSASSA;
              RSA := Some {| HashAlg := AlgSHA256;
                             Signature_ := replicate (Z.to_nat (sigLen c)) xaa |} |},
      None));
  tpm2_ReadPCRs := fun c sel =>
    (tick c,
     (list_to_map
        (map (fun pcr => (pcr, digestOf (Hash sel) pcr))
             (take (perRead c) (PCRs sel))), None)) |}.

Definition world (perRead : nat) (sigLen : Z) (nvram : bytes) : World :=
  {| pkg := init_globals;
     chip := {| perRead := perRead; sigLen := sigLen; nvram := nvram;
                served := 0 |};
     transcript := [] |}.

End Bench.

(** ** What the design document claims, next to the code

    Definitions that follow the document's words; the theorems below compare
    them with the functions above. *)

Module Documented.
Import tpm2 attest.

(** "each containing 4 ASCII octets packed big-endian into a numeric field;
    concatenate in query order, then strip trailing null padding". *)
Definition vendorString (values : list Z) : bytes :=
  trimRightByte (concat (map BigEndian_PutUint32 values)) x00.

(** The "5-byte prefix (3-byte tag + 2-byte big-endian length)" put before
    a certificate [c], with whatever follows the certificate in storage. *)
Definition nvramWrap (c trailing : bytes) : bytes :=
  [x10; x01; x00] ++ BigEndian_PutUint16 (len c) ++ c ++ trailing.

(** The registers a sequence of exchanges has supplied so far. *)
Definition supplied `{Libraries} (x : Exchange) : gset Z :=
  match x with
  | XReadPCRs _ (r, None) => dom r
  | _ => ∅
  end.

Definition obtained `{Libraries} (xs : list Exchange) : gset Z :=
  ⋃ (supplied <$> xs).

(** "The hardware may only partially satisfy a bank-read request": an
    answer holds values for some of the registers asked for, and for no
    other. *)
Definition partialReads `{Chip} : Prop :=
  forall c sel c' r,
    tpm2_ReadPCRs c sel = (c', (r, None)) ->
    forall pcr, pcr ∈ dom r -> pcr ∈ PCRs sel.

(** The selection a round has to send when [earlier] are the exchanges
    before it. *)
Definition stillMissing `{Libraries} (earlier : list Exchange) : list Z :=
  filter (fun pcr => pcr ∉ obtained earlier) (seqZ 0 24).

(** The guard of the unwrapping block: the input is longer than the
    prefix and starts with the tag. *)
Definition hasPrefix (ekCert : bytes) : bool :=
  (5 <? len ekCert) && bytes_Equal (take 3 ekCert) [x10; x01; x00].

(** The length field of an input that has the prefix. *)
Definition declaredLength (ekCert : bytes) : Z :=
  match ekCert with
  | _ :: _ :: _ :: hi :: lo :: _ => 256 * byte_to_Z hi + byte_to_Z lo
  | _ => 0
  end.

(** "ekCert size smaller than specified cert length": the input has the
    prefix and is shorter than the prefix followed by as many bytes as the
    prefix declares. *)
Definition headerTooShort (ekCert : bytes) : bool :=
  hasPrefix ekCert && (len ekCert <? declaredLength ekCert + 5).

(** The "(possibly unwrapped) input": the declared number of bytes after the
    prefix when the input has the prefix, the input itself when it has
    not. *)
Definition payloadOf (ekCert : bytes) : bytes :=
  if hasPrefix ekCert
  then take (Z.to_nat (declaredLength ekCert)) (drop 5 ekCert)
  else ekCert.

(** [err != nil && x509.IsFatal(err)]. *)
Definition fatal `{Libraries} (err : option lib_error) : bool :=
  match err with
  | Some e => x509_IsFatal e
  | None => false
  end.

(** The call came back with a non-nil error. *)
Definition returnsError {A E} (o : Outcome (A * option E)) : Prop :=
  exists a e, o = Returned (a, Some e).

(** A result of [ParseEKCertificate] without the [wasWrapped] its error
    message may print. *)
Definition forgetWrapped `{Libraries}
    (o : Outcome (option Certificate * option Error))
    : Outcome (option Certificate * option Error) :=
  match o with
  | Returned (c, Some (ErrAsn1Unmarshal e _)) =>
    Returned (c, Some (ErrAsn1Unmarshal e false))
  | _ => o
  end.

(** Calls of [quote20] made one after the other; the state after the last
    one. *)
Record QuoteCall := { handle : Z; hashAlg : Z; nonce : bytes }.

Definition quoteEach `{Chip} (calls : list QuoteCall) (w : World) : World :=
  fold_left (fun w call => snd (quote20 (handle call) (hashAlg call)
                                        (nonce call) w)) calls w.

(** The one command a call of [quote20] is to send: a quote by the key over
    the registers 0 to 23 of the bank, with the caller's nonce as
    qualifying data, empty passwords and no signature scheme override. *)
Definition isQuoteOf `{Libraries} (call : QuoteCall) (x : Exchange) : Prop :=
  exists resp,
    x = XQuote (handle call) [] [] (nonce call)
               {| Hash := hashAlg call;
                  PCRs := [0; 1; 2; 3; 4; 5; 6; 7; 8; 9; 10; 11; 12; 13; 14;
                           15; 16; 17; 18; 19; 20; 21; 22; 23] |}
               AlgNull resp.

(** The number a byte string denotes when read big-endian. *)
Definition bigEndianValue (b : bytes) : Z :=
  fold_left (fun acc x => acc * 256 + byte_to_Z x) b 0.

(** A computation that leaves the package-level variables as they are. *)
Definition frames `{Chip} {A} (m : M A) : Prop :=
  forall w, pkg (snd (m w)) = pkg w.

(** A call of one of the functions of the file. *)
Inductive Call :=
| CallReadTPM2VendorAttributes
| CallParseEKCertificate (ekCert : bytes)
| CallIntelEKURL (ekPub : PublicKey)
| CallReadEKCertFromNVRAM20
| CallQuote20 (aikHandle hashAlg : Z) (nonce : bytes)
| CallReadAllPCRs20 (alg : Z)
| CallLoadAIK (t : TPM) (opaqueBlob : bytes).

(** The state a call leaves. [ParseEKCertificate], [intelEKURL] and
    [LoadAIK] have no access to it. *)
Definition after `{Chip} (call : Call) (w : World) : World :=
  match call with
  | CallReadTPM2VendorAttributes => snd (readTPM2VendorAttributes w)
  | CallReadEKCertFromNVRAM20 => snd (readEKCertFromNVRAM20 w)
  | CallQuote20 aikHandle hashAlg nonce =>
    snd (quote20 aikHandle hashAlg nonce w)
  | CallReadAllPCRs20 alg => snd (readAllPCRs20 alg w)
  | CallParseEKCertificate _ | CallIntelEKURL _ | CallLoadAIK _ _ => w
  end.

Definition afterAll `{Chip} (calls : list Call) (w : World) : World :=
  fold_left (fun w call => after call w) calls w.

(** The state when the package has been initialised. *)
Definition processStart `{Chip} (c : chip_state) : World :=
  {| pkg := init_globals; chip := c; transcript := [] |}.

(** The request part of a [GetCapability] exchange. *)
Definition asRequest `{Libraries} (x : Exchange) : option (Z * Z * Z) :=
  match x with
  | XGetCapability cap count property _ => Some (cap, count, property)
  | _ => None
  end.

(** The six queries of [readTPM2VendorAttributes] in the order of the source:
    capability, count, property. *)
Definition infoRequests : list (Z * Z * Z) :=
  [ (6, 1, 0x106); (6, 1, 0x107); (6, 1, 0x108); (6, 1, 0x109);
    (6, 1, 0x105); (6, 1, 0x10b) ].

(** The value an exchange reported: it came back without error and its
    first capability is a [TaggedProperty]. *)
Definition reported `{Libraries} (x : Exchange) : option Z :=
  match x with
  | XGetCapability _ _ _ (TaggedProperty _ Value :: _, _, None) => Some Value
  | _ => None
  end.

(** The exchange came back without error and without any capability. *)
Definition answeredEmpty `{Libraries} (x : Exchange) : Prop :=
  exists cap count property more,
    x = XGetCapability cap count property ([], more, None).

(** A [ReadPCRs] exchange that came back without error. *)
Definition answered `{Libraries} (x : Exchange) : Prop :=
  match x with
  | XReadPCRs _ (_, None) => True
  | _ => False
  end.

(** One of the exchanges supplied the digest [d] for the register [pcr]. *)
Definition suppliedAs `{Libraries} (xs : list Exchange) (pcr : Z) (d : bytes)
    : Prop :=
  exists sel r, XReadPCRs sel (r, None) ∈ xs /\ r !! pcr = Some d.

(** A [ReadPCRs] request of [readAllPCRs20]: under the algorithm given, for
    some of the registers 0 to 23 in increasing order. *)
Definition isBankRequest `{Libraries} (alg : Z) (x : Exchange) : Prop :=
  exists sel resp,
    x = XReadPCRs sel resp /\ Hash sel = alg
    /\ PCRs sel `sublist_of` seqZ 0 24.

(** A byte that [base64.URLEncoding] can produce: a character of its
    alphabet or the padding character. *)
Definition urlSafe (ch : byte) : Prop := ch ∈ encodeURL \/ ch = padChar.

(** The place of a character in an alphabet (its length when absent). *)
Fixpoint positionOf (ch : byte) (alphabet : bytes) : Z :=
  match alphabet with
  | [] => 0
  | x :: rest => if byte_eqb ch x then 0 else 1 + positionOf ch rest
  end.

(** The 24 bits a group of up to three bytes is encoded from. *)
Definition group24 (a b c : byte) : Z :=
  Z.lor (Z.lor (Z.shiftl (byte_to_Z a) 16) (Z.shiftl (byte_to_Z b) 8))
        (byte_to_Z c).

End Documented.

(** ** A chip that plays back a script

    Each command takes the next answer written down for it; a command whose
    answers are used up fails. *)

Module Scripted.
Import tpm2 attest.

Record Script := {
  capabilities : list (list Capability * bool * option Bench.BenchError);
  nvReads : list (bytes * option Bench.BenchError);
  quotes : list (bytes * option Signature * option Bench.BenchError);
  pcrReads : list (gmap Z bytes * option Bench.BenchError) }.

Definition nextCapability (c : Script)
    : Script * (list Capability * bool * option Bench.BenchError) :=
  match capabilities c with
  | a :: rest =>
    ({| capabilities := rest; nvReads := nvReads c; quotes := quotes c;
        pcrReads := pcrReads c |}, a)
  | [] => (c, ([], false, Some Bench.CommandFailed))
  end.

Definition nextNVRead (c : Script)
    : Script * (bytes * option Bench.BenchError) :=
  match nvReads c with
  | a :: rest =>
    ({| capabilities := capabilities c; nvReads := rest; quotes := quotes c;
        pcrReads := pcrReads c |}, a)
  | [] => (c, ([], Some Bench.CommandFailed))
  end.

Definition nextQuote (c : Script)
    : Script * (bytes * option Signature * option Bench.BenchError) :=
  match quotes c with
  | a :: rest =>
    ({| capabilities := capabilities c; nvReads := nvReads c; quotes := rest;
        pcrReads := pcrReads c |}, a)
  | [] => (c, ([], None, Some Bench.CommandFailed))
  end.

Definition nextPCRRead (c : Script)
    : Script * (gmap Z bytes * option Bench.BenchError) :=
  match pcrReads c with
  | a :: rest =>
    ({| capabilities := capabilities c; nvReads := nvReads c;
        quotes := quotes c; pcrReads := rest |}, a)
  | [] => (c, (∅, Some Bench.CommandFailed))
  end.

#[export] Instance scriptedChip : Chip (H := Bench.benchLibraries) :=
  @Build_Chip Bench.benchLibraries Script
    (fun c cap count p => nextCapability c)
    (fun c index authHandle password blockSize => nextNVRead c)
    (fun c h parentPassword ownerPassword toQuote sel sigAlg => nextQuote c)
    (fun c sel => nextPCRRead c).

Definition world (script : Script) : @World Bench.benchLibraries scriptedChip :=
  @Build_World Bench.benchLibraries scriptedChip init_globals script [].

End Scripted.

(** ** Properties *)

Import tpm2 attest Documented.

(** *** Bytes and integers *)

Lemma byte_to_Z_range (b : byte) : 0 <= byte_to_Z b < 256.
Proof.
  unfold byte_to_Z. pose proof (Byte.to_N_bounded b). lia.
Qed.

Lemma byte_to_of_Z (z : Z) : byte_to_Z (byte_of_Z z) = z mod 256.
Proof.
  unfold byte_to_Z, byte_of_Z.
  assert (Hr : 0 <= z mod 256 < 256) by (apply Z.mod_pos_bound; lia).
  destruct (Byte.of_N (Z.to_N (z mod 256))) as [b|] eqn:Hb.
  - apply Byte.to_of_N in Hb. simpl. rewrite Hb. lia.
  - apply Byte.of_N_None_iff in Hb. lia.
Qed.

Lemma byte_of_to_Z (b : byte) : byte_of_Z (byte_to_Z b) = b.
Proof.
  unfold byte_of_Z. rewrite Z.mod_small by apply byte_to_Z_range.
  unfold byte_to_Z. rewrite N2Z.id, Byte.of_to_N. reflexivity.
Qed.

Lemma byte_eqb_eq (a b : byte) : byte_eqb a b = true <-> a = b.
Proof.
  split; [apply Byte.byte_dec_bl | apply Byte.byte_dec_lb].
Qed.

Lemma bytes_Equal_eq (a b : bytes) : bytes_Equal a b = true <-> a = b.
Proof.
  revert b. induction a as [|x a IH]; intros [|y b]; simpl; try easy.
  rewrite andb_true_iff, byte_eqb_eq, IH. split.
  - intros [-> ->]. reflexivity.
  - intros [= -> ->]. easy.
Qed.

Lemma len_app {A} (a b : list A) : len (a ++ b) = len a + len b.
Proof. unfold len. rewrite length_app. lia. Qed.

Lemma len_nonneg {A} (a : list A) : 0 <= len a.
Proof. unfold len. lia. Qed.

(** Sixteen bits written big-endian read back as themselves. *)
Lemma Uint16_PutUint16 (v : Z) (rest : bytes) :
  0 <= v < 2 ^ 16 ->
  BigEndian_Uint16 (BigEndian_PutUint16 v ++ rest) = Returned v.
Proof.
  intros Hv. unfold BigEndian_Uint16, BigEndian_PutUint16, index. simpl.
  f_equal. rewrite !byte_to_of_Z, Z.shiftr_div_pow2, Z.shiftl_mul_pow2 by lia.
  change (2 ^ 8) with 256.
  assert (Hhi : 0 <= v / 256 < 256)
    by (split; [apply Z.div_pos; lia | apply Z.div_lt_upper_bound; lia]).
  rewrite (Z.mod_small (v / 256)) by lia.
  rewrite Z.lor_comm.
  rewrite <- (Z.add_nocarry_lor).
  - pose proof (Z.div_mod v 256). lia.
  - apply Z.bits_inj'. intros n Hn. rewrite Z.land_spec, Z.bits_0.
    destruct (Z.lt_ge_cases n 8) as [Hlt|Hge].
    + replace (v / 256 * 256) with (Z.shiftl (v / 256) 8)
        by (rewrite Z.shiftl_mul_pow2; lia).
      rewrite Z.shiftl_spec_low by lia. reflexivity.
    + replace (v mod 256) with (v mod 2 ^ 8) by reflexivity.
      rewrite (Z.mod_pow2_bits_high v 8 n) by lia. apply andb_false_r.
Qed.

(** *** Slices *)

Lemma slice_in_range {A} (s : list A) (low high : Z) :
  0 <= low <= high -> high <= len s ->
  slice s low high
  = Returned (take (Z.to_nat (high - low)) (drop (Z.to_nat low) s)).
Proof.
  intros [Hl Hh] Hs. unfold slice.
  destruct (Z.leb_spec 0 low), (Z.leb_spec low high), (Z.leb_spec high (len s));
    simpl; try lia; reflexivity.
Qed.

Lemma slice_inverted {A} (s : list A) (low high : Z) :
  high < low -> slice s low high = Panicked (SliceBoundsOutOfRange low high (len s)).
Proof.
  intros Hlt. unfold slice.
  destruct (Z.leb_spec low high); [lia|].
  rewrite andb_false_r. reflexivity.
Qed.

(** *** The NVRAM prefix *)

Section Prefix.
Context `{Libraries}.

Lemma lor_shiftl_8 (hi lo : byte) :
  Z.lor (byte_to_Z lo) (Z.shiftl (byte_to_Z hi) 8)
  = 256 * byte_to_Z hi + byte_to_Z lo.
Proof.
  pose proof (byte_to_Z_range hi) as Hhi.
  pose proof (byte_to_Z_range lo) as Hlo.
  pose proof (Uint16_PutUint16 (256 * byte_to_Z hi + byte_to_Z lo) []) as Hput.
  unfold BigEndian_Uint16, BigEndian_PutUint16, index in Hput. simpl in Hput.
  assert (Hd : (256 * byte_to_Z hi + byte_to_Z lo) / 256 = byte_to_Z hi)
    by (symmetry; apply (Z.div_unique _ _ _ (byte_to_Z lo)); lia).
  rewrite Z.shiftr_div_pow2 in Hput by lia. change (2 ^ 8) with 256 in Hput.
  rewrite Hd in Hput.
  assert (Hlow : byte_of_Z (256 * byte_to_Z hi + byte_to_Z lo)
                 = byte_of_Z (byte_to_Z lo)).
  { unfold byte_of_Z. f_equal. f_equal. f_equal.
    rewrite Z.add_comm, Z.mul_comm, Z_mod_plus_full. reflexivity. }
  rewrite Hlow in Hput.
  assert (Hr : 0 <= 256 * byte_to_Z hi + byte_to_Z lo < 2 ^ 16) by lia.
  specialize (Hput Hr). injection Hput as Hput.
  rewrite !byte_of_to_Z in Hput. exact Hput.
Qed.

Lemma declaredLength_range (ekCert : bytes) :
  0 <= declaredLength ekCert < 2 ^ 16.
Proof.
  unfold declaredLength.
  destruct ekCert as [|a [|b [|c [|hi [|lo rest]]]]]; try lia.
  pose proof (byte_to_Z_range hi). pose proof (byte_to_Z_range lo). lia.
Qed.

(** What the unwrapping block does, case by case. *)
Lemma nvramUnwrap_cases (ekCert : bytes) :
  nvramUnwrap ekCert =
  if hasPrefix ekCert then
    let certLen := declaredLength ekCert in
    if len ekCert <? uint16 (certLen + 5)
    then Returned (inr (ErrNvramHeader (len ekCert) certLen))
    else if 5 <=? uint16 (5 + certLen)
    then Returned (inl (take (Z.to_nat certLen) (drop 5 ekCert), true))
    else Panicked (SliceBoundsOutOfRange 5 (uint16 (5 + certLen)) (len ekCert))
  else Returned (inl (ekCert, false)).
Proof.
  unfold nvramUnwrap, hasPrefix.
  destruct (Z.ltb_spec 5 (len ekCert)) as [Hlen|Hlen]; [|reflexivity].
  destruct ekCert as [|a [|b [|c [|hi [|lo rest]]]]];
    try (unfold len in Hlen; simpl in Hlen; lia).
  rewrite slice_in_range by (unfold len in *; simpl in *; lia).
  rewrite andb_true_l.
  change (take (Z.to_nat (3 - 0)) (drop (Z.to_nat 0) (a :: b :: c :: hi :: lo :: rest)))
    with [a; b; c].
  change (take 3 (a :: b :: c :: hi :: lo :: rest)) with [a; b; c].
  unfold obind at 1.
  destruct (bytes_Equal [a; b; c] [x10; x01; x00]); [|reflexivity].
  rewrite slice_in_range by (unfold len in *; simpl in *; lia).
  change (take (Z.to_nat (5 - 3)) (drop (Z.to_nat 3) (a :: b :: c :: hi :: lo :: rest)))
    with [hi; lo].
  unfold obind at 1.
  unfold BigEndian_Uint16, index; simpl obind.
  rewrite lor_shiftl_8.
  change (declaredLength (a :: b :: c :: hi :: lo :: rest))
    with (256 * byte_to_Z hi + byte_to_Z lo).
  set (certLen := 256 * byte_to_Z hi + byte_to_Z lo).
  cbv zeta.
  destruct (Z.ltb_spec (len (a :: b :: c :: hi :: lo :: rest)) (uint16 (certLen + 5)))
    as [Hshort|Hfits]; [reflexivity|].
  destruct (Z.leb_spec 5 (uint16 (5 + certLen))) as [Hok|Hbad].
  - rewrite slice_in_range.
    + simpl obind. do 3 f_equal.
      assert (Hc : 0 <= certLen < 2 ^ 16).
      { pose proof (byte_to_Z_range hi). pose proof (byte_to_Z_range lo).
        unfold certLen. lia. }
      assert (Hu : uint16 (5 + certLen) = 5 + certLen).
      { unfold uint16 in *.
        destruct (Z.lt_ge_cases (5 + certLen) (2 ^ 16)) as [Hs|Hl].
        - apply Z.mod_small. lia.
        - exfalso. rewrite <- (Z.sub_add (2 ^ 16) (5 + certLen)) in Hok.
          rewrite <- (Z.mul_1_l (2 ^ 16)) in Hok at 2.
          rewrite Z_mod_plus_full, Z.mod_small in Hok by lia. lia. }
      rewrite Hu. replace (5 + certLen - 5) with certLen by lia.
      reflexivity.
    + lia.
    + replace (certLen + 5) with (5 + certLen) in Hfits by lia. exact Hfits.
  - rewrite slice_inverted by lia. reflexivity.
Qed.

End Prefix.

(** *** [ParseEKCertificate] *)

Section ParseEKCertificate_properties.
Context `{Libraries}.

(** The function panics on exactly the inputs whose prefix declares a
    length of 65531 or more. *)
Lemma ParseEKCertificate_panics_iff (ekCert : bytes) :
  panics (ParseEKCertificate ekCert)
  <-> hasPrefix ekCert = true /\ 65531 <= declaredLength ekCert.
Proof.
  unfold ParseEKCertificate. rewrite nvramUnwrap_cases.
  pose proof (declaredLength_range ekCert) as Hr.
  destruct (hasPrefix ekCert) eqn:Hp; simpl.
  2: { split; [tauto | intros [? _]; discriminate]. }
  assert (Hlen : 5 < len ekCert).
  { unfold hasPrefix in Hp. apply andb_true_iff in Hp as [Hp _].
    apply Z.ltb_lt in Hp. exact Hp. }
  set (certLen := declaredLength ekCert) in *.
  destruct (Z.lt_ge_cases certLen 65531) as [Hsmall|Hbig].
  - assert (Hu : uint16 (certLen + 5) = certLen + 5)
      by (unfold uint16; apply Z.mod_small; lia).
    assert (Hu' : uint16 (5 + certLen) = 5 + certLen)
      by (unfold uint16; apply Z.mod_small; lia).
    rewrite Hu, Hu'.
    destruct (len ekCert <? certLen + 5); simpl; [split; [tauto|lia]|].
    destruct (Z.leb_spec 5 (5 + certLen)); [|lia].
    simpl. split; [tauto|lia].
  - assert (Hu : uint16 (certLen + 5) = certLen + 5 - 2 ^ 16).
    { unfold uint16. symmetry.
      apply (Z.mod_unique _ _ 1); lia. }
    assert (Hu' : uint16 (5 + certLen) = certLen + 5 - 2 ^ 16)
      by (rewrite Z.add_comm; exact Hu).
    rewrite Hu, Hu'.
    destruct (Z.ltb_spec (len ekCert) (certLen + 5 - 2 ^ 16)); [lia|].
    destruct (Z.leb_spec 5 (certLen + 5 - 2 ^ 16)); [lia|].
    simpl. split; [intros _; split; [reflexivity|lia] | tauto].
Qed.

(** An input without the prefix is parsed as it is. *)
Lemma ParseEKCertificate_plain (ekCert : bytes) :
  hasPrefix ekCert = false ->
  ParseEKCertificate ekCert = Returned (parseUnwrapped ekCert false).
Proof.
  intros Hp. unfold ParseEKCertificate.
  rewrite nvramUnwrap_cases, Hp. reflexivity.
Qed.

Lemma hasPrefix_nvramWrap (c trailing : bytes) :
  1 <= len c -> hasPrefix (nvramWrap c trailing) = true.
Proof.
  intros Hc. unfold hasPrefix, nvramWrap, BigEndian_PutUint16.
  apply andb_true_iff. split; [|reflexivity].
  apply Z.ltb_lt. rewrite !len_app.
  pose proof (len_nonneg trailing). change (len [x10; x01; x00]) with 3.
  match goal with |- context [len [?a; ?b]] => change (len [a; b]) with 2 end.
  lia.
Qed.

Lemma declaredLength_nvramWrap (c trailing : bytes) :
  len c < 2 ^ 16 -> declaredLength (nvramWrap c trailing) = len c.
Proof.
  intros Hc. pose proof (len_nonneg c) as H0.
  pose proof (Uint16_PutUint16 (len c) [] (conj H0 Hc)) as Hput.
  unfold nvramWrap, BigEndian_PutUint16 in *. simpl.
  unfold BigEndian_Uint16, index in Hput. simpl in Hput.
  injection Hput as Hput. rewrite lor_shiftl_8 in Hput. exact Hput.
Qed.

(** The block unwraps a wrapped certificate of up to 65530 bytes to the
    certificate. *)
Lemma nvramUnwrap_nvramWrap (c trailing : bytes) :
  1 <= len c <= 65530 ->
  nvramUnwrap (nvramWrap c trailing) = Returned (inl (c, true)).
Proof.
  intros Hc. rewrite nvramUnwrap_cases.
  rewrite hasPrefix_nvramWrap by lia.
  rewrite declaredLength_nvramWrap by lia. cbv zeta.
  assert (Hu : uint16 (len c + 5) = len c + 5)
    by (unfold uint16; apply Z.mod_small; lia).
  assert (Hu' : uint16 (5 + len c) = 5 + len c)
    by (unfold uint16; apply Z.mod_small; lia).
  rewrite Hu, Hu'.
  assert (Hlen : len (nvramWrap c trailing) = 5 + len c + len trailing).
  { unfold nvramWrap, BigEndian_PutUint16. rewrite !len_app.
    change (len [x10; x01; x00]) with 3.
    match goal with |- context [len [?a; ?b]] => change (len [a; b]) with 2 end.
    lia. }
  rewrite Hlen. pose proof (len_nonneg trailing).
  destruct (Z.ltb_spec (5 + len c + len trailing) (len c + 5)); [lia|].
  destruct (Z.leb_spec 5 (5 + len c)); [|lia].
  do 3 f_equal. unfold nvramWrap, BigEndian_PutUint16. simpl.
  unfold len. rewrite Nat2Z.id. apply take_app_length.
Qed.

Lemma forgetWrapped_parseUnwrapped (c : bytes) (w : bool) :
  forgetWrapped (Returned (parseUnwrapped c w))
  = forgetWrapped (Returned (parseUnwrapped c false)).
Proof.
  unfold parseUnwrapped.
  destruct (x509_ParseCertificate c) as [c1 [e1|]]; [|reflexivity].
  destruct (asn1_UnmarshalWithParams_lax c) as [Raw [e2|]]; [|reflexivity].
  destruct (x509_IsFatal e2); [|reflexivity].
  reflexivity.
Qed.

End ParseEKCertificate_properties.

(** [ParseEKCertificate], on the input the unwrapping block leaves
    ([payload]): strict parsing is tried first and its certificate returned
    when it succeeds. When it fails, the content is extracted again by the
    lenient ASN.1 decoder and strict parsing is retried on the extracted
    bytes; the call then returns an error exactly when the lenient extraction
    or the retried parse failed fatally, and otherwise returns what the
    retried parse produced. *)
Lemma ParseEKCertificate_after_unwrap `{Libraries}
    (ekCert payload : bytes) (wasWrapped : bool) :
  nvramUnwrap ekCert = Returned (inl (payload, wasWrapped)) ->
  let strict := x509_ParseCertificate payload in
  let lenient := asn1_UnmarshalWithParams_lax payload in
  let retry := x509_ParseCertificate (fst lenient) in
  (snd strict = None ->
   ParseEKCertificate ekCert = Returned (fst strict, None))
  /\ (snd strict <> None ->
      (returnsError (ParseEKCertificate ekCert)
       <-> fatal (snd lenient) = true \/ fatal (snd retry) = true)
      /\ (fatal (snd lenient) = false -> fatal (snd retry) = false ->
          ParseEKCertificate ekCert = Returned (fst retry, None))).
Proof.
  intros Hun. unfold ParseEKCertificate. rewrite Hun. simpl obind.
  unfold parseUnwrapped, returnsError, fatal.
  destruct (x509_ParseCertificate payload) as [c1 [e1|]]; simpl.
  2: { split; [reflexivity | congruence]. }
  split; [discriminate | intros _].
  destruct (asn1_UnmarshalWithParams_lax payload) as [Raw [e2|]]; simpl.
  - destruct (x509_IsFatal e2) eqn:Hf2.
    + split; [|discriminate].
      split; [intros _; left; reflexivity | intros _; eauto].
    + destruct (x509_ParseCertificate Raw) as [c3 [e3|]]; simpl.
      * destruct (x509_IsFatal e3) eqn:Hf3.
        -- split; [|discriminate].
           split; [intros _; right; reflexivity | intros _; eauto].
        -- split; [|reflexivity].
           split; [intros (a & e & [=]) | intros [|]; discriminate].
      * split; [|reflexivity].
        split; [intros (a & e & [=]) | intros [|]; discriminate].
  - destruct (x509_ParseCertificate Raw) as [c3 [e3|]]; simpl.
    + destruct (x509_IsFatal e3) eqn:Hf3.
      * split; [|discriminate].
        split; [intros _; right; reflexivity | intros _; eauto].
      * split; [|reflexivity].
        split; [intros (a & e & [=]) | intros [|]; discriminate].
    + split; [|reflexivity].
      split; [intros (a & e & [=]) | intros [|]; discriminate].
Qed.

(** Without the overflow of the length field, the unwrapping block either
    rejects the input for its header or leaves the payload. *)
Lemma nvramUnwrap_in_range `{Libraries} (ekCert : bytes) :
  hasPrefix ekCert = false \/ declaredLength ekCert <= 65530 ->
  nvramUnwrap ekCert
  = if headerTooShort ekCert
    then Returned (inr (ErrNvramHeader (len ekCert) (declaredLength ekCert)))
    else Returned (inl (payloadOf ekCert, hasPrefix ekCert)).
Proof.
  intros Hrange. rewrite nvramUnwrap_cases.
  unfold headerTooShort, payloadOf.
  destruct (hasPrefix ekCert) eqn:Hp; [|reflexivity].
  destruct Hrange as [|Hrange]; [discriminate|].
  pose proof (declaredLength_range ekCert) as Hr.
  cbv zeta. set (certLen := declaredLength ekCert) in *.
  assert (Hu : uint16 (certLen + 5) = certLen + 5)
    by (unfold uint16; apply Z.mod_small; lia).
  assert (Hu' : uint16 (5 + certLen) = 5 + certLen)
    by (unfold uint16; apply Z.mod_small; lia).
  rewrite Hu, Hu', andb_true_l.
  destruct (len ekCert <? certLen + 5); [reflexivity|].
  destruct (Z.leb_spec 5 (5 + certLen)); [reflexivity|lia].
Qed.

(** C3, as amended. For every input whose prefix, if it has one, declares at
    most 65530 bytes: when the input has the prefix and is shorter than the
    prefix with the declared number of bytes, [ParseEKCertificate] returns
    the header error and no certificate, before any parsing. Otherwise strict
    parsing of the (possibly unwrapped) input is tried first and its
    certificate returned when it succeeds; when it fails, the content is
    extracted again by the lenient ASN.1 decoder and strict parsing retried
    on the extracted bytes, and what the retry produced is returned unless the
    extraction or the retry failed fatally. The call returns an error exactly
    when the header check fails or, strict parsing having failed, the lenient
    extraction or the retried parse fails fatally. *)
Theorem ParseEKCertificate_header_then_strict_then_lenient `{Libraries}
    (ekCert : bytes) :
  hasPrefix ekCert = false \/ declaredLength ekCert <= 65530 ->
  let payload := payloadOf ekCert in
  let strict := x509_ParseCertificate payload in
  let lenient := asn1_UnmarshalWithParams_lax payload in
  let retry := x509_ParseCertificate (fst lenient) in
  (headerTooShort ekCert = true ->
   ParseEKCertificate ekCert
   = Returned (None, Some (ErrNvramHeader (len ekCert)
                                          (declaredLength ekCert))))
  /\ (headerTooShort ekCert = false -> snd strict = None ->
      ParseEKCertificate ekCert = Returned (fst strict, None))
  /\ (headerTooShort ekCert = false -> snd strict <> None ->
      fatal (snd lenient) = false -> fatal (snd retry) = false ->
      ParseEKCertificate ekCert = Returned (fst retry, None))
  /\ (returnsError (ParseEKCertificate ekCert)
      <-> headerTooShort ekCert = true
          \/ (snd strict <> None
              /\ (fatal (snd lenient) = true \/ fatal (snd retry) = true))).
Proof.
  intros Hrange. cbv zeta.
  pose proof (nvramUnwrap_in_range ekCert Hrange) as Hun.
  destruct (headerTooShort ekCert) eqn:Hshort.
  - assert (Herr : ParseEKCertificate ekCert
                   = Returned (None, Some (ErrNvramHeader
                                             (len ekCert)
                                             (declaredLength ekCert))))
      by (unfold ParseEKCertificate; rewrite Hun; reflexivity).
    split; [intros _; exact Herr|].
    split; [discriminate|]. split; [discriminate|].
    split; [intros _; left; reflexivity|].
    intros _. rewrite Herr. unfold returnsError. eauto.
  - pose proof (ParseEKCertificate_after_unwrap
                  ekCert (payloadOf ekCert) (hasPrefix ekCert) Hun)
      as [Hstrict Hretry].
    cbv zeta in Hstrict, Hretry.
    split; [discriminate|].
    split; [intros _; exact Hstrict|].
    split.
    { intros _ Hfail. destruct (Hretry Hfail) as [_ Hok]. exact Hok. }
    destruct (snd (x509_ParseCertificate (payloadOf ekCert))) as [e1|] eqn:H1.
    + destruct (Hretry ltac:(discriminate)) as [Hiff _].
      rewrite Hiff. split.
      * intros Hf. right. split; [discriminate | exact Hf].
      * intros [|[_ Hf]]; [discriminate | exact Hf].
    + rewrite (Hstrict eq_refl). split.
      * intros (a & e & [=]).
      * intros [|[Hne _]]; [discriminate | congruence].
Qed.

(** A stored certificate followed by one stray byte: strict parsing fails on
    the trailing byte, the lenient decoder cuts it off, the retry succeeds. *)
Lemma ParseEKCertificate_header_then_strict_then_lenient_witness :
  ParseEKCertificate (H := Bench.benchLibraries)
    [x10; x01; x00; x00; x04; x30; x01; x07; x99]
  = Returned (Some [x07], None).
Proof.
  pose proof (ParseEKCertificate_header_then_strict_then_lenient
                (H := Bench.benchLibraries)
                [x10; x01; x00; x00; x04; x30; x01; x07; x99]
                ltac:(right; vm_compute; discriminate))
    as (_ & _ & Hok & _).
  apply Hok; [reflexivity | discriminate | reflexivity | reflexivity].
Defined.

(** C3, as stated, fails: on the six bytes [10 01 00 00 10 00] (the prefix,
    a declared length of 16, one byte of payload) the call returns an error,
    with parsers none of whose errors is fatal. The error is that of the
    header check; neither the lenient extraction nor a retried parse has
    taken place. *)
Lemma ParseEKCertificate_header_error_is_no_decode_error :
  ParseEKCertificate (H := Bench.tolerantLibraries)
    [x10; x01; x00; x00; x10; x00]
  = Returned (None, Some (ErrNvramHeader 6 16))
  /\ returnsError (ParseEKCertificate (H := Bench.tolerantLibraries)
                     [x10; x01; x00; x00; x10; x00])
  /\ (forall err, fatal (H := Bench.tolerantLibraries) err = false)
  /\ ~ (returnsError (ParseEKCertificate (H := Bench.tolerantLibraries)
                        [x10; x01; x00; x00; x10; x00])
        <-> exists payload : bytes,
              fatal (H := Bench.tolerantLibraries)
                    (snd (asn1_UnmarshalWithParams_lax
                            (Libraries := Bench.tolerantLibraries) payload))
              = true
              \/ fatal (H := Bench.tolerantLibraries)
                       (snd (x509_ParseCertificate
                               (Libraries := Bench.tolerantLibraries)
                               (fst (asn1_UnmarshalWithParams_lax
                                       (Libraries := Bench.tolerantLibraries)
                                       payload))))
                 = true).
Proof.
  cbv zeta.
  assert (Hnever : forall err, fatal (H := Bench.tolerantLibraries) err = false)
    by (intros [e|]; reflexivity).
  assert (Herr : returnsError
                   (ParseEKCertificate (H := Bench.tolerantLibraries)
                      [x10; x01; x00; x00; x10; x00]))
    by (unfold returnsError; eexists; eexists; reflexivity).
  split; [reflexivity|]. split; [exact Herr|]. split; [exact Hnever|].
  intros [Hto _]. destruct (Hto Herr) as (payload & [Hf|Hf]);
    rewrite Hnever in Hf; discriminate.
Qed.

(** C4, as amended. For a certificate [c] of 1 to 65530 bytes that does not
    itself start with the NVRAM prefix, [ParseEKCertificate] on the wrapped
    input (tag, 16-bit big-endian length, [c], then any trailing bytes) works
    on exactly [c], with [wasWrapped] set, and its result is that of
    [ParseEKCertificate] on [c] alone up to the [wasWrapped] that the error of
    a fatally failed lenient extraction reports. *)
Theorem ParseEKCertificate_wrapped_as_unwrapped `{Libraries}
    (c trailing : bytes) :
  1 <= len c <= 65530 ->
  hasPrefix c = false ->
  nvramUnwrap (nvramWrap c trailing) = Returned (inl (c, true))
  /\ ParseEKCertificate (nvramWrap c trailing)
     = Returned (parseUnwrapped c true)
  /\ ParseEKCertificate c = Returned (parseUnwrapped c false)
  /\ forgetWrapped (ParseEKCertificate (nvramWrap c trailing))
     = forgetWrapped (ParseEKCertificate c).
Proof.
  intros Hlen Hplain.
  pose proof (nvramUnwrap_nvramWrap c trailing Hlen) as Hun.
  assert (Hw : ParseEKCertificate (nvramWrap c trailing)
               = Returned (parseUnwrapped c true))
    by (unfold ParseEKCertificate; rewrite Hun; reflexivity).
  pose proof (ParseEKCertificate_plain c Hplain) as Hp.
  split; [exact Hun|]. split; [exact Hw|]. split; [exact Hp|].
  rewrite Hw, Hp. apply forgetWrapped_parseUnwrapped.
Qed.

Lemma ParseEKCertificate_wrapped_as_unwrapped_witness :
  ParseEKCertificate (H := Bench.benchLibraries)
    (nvramWrap [x30; x01; x07] [x99; x99])
  = Returned (Some [x07], None)
  /\ ParseEKCertificate (H := Bench.benchLibraries) [x30; x01; x07]
     = Returned (Some [x07], None).
Proof.
  assert (Hlen : 1 <= len [x30; x01; x07] <= 65530) by (vm_compute; split; discriminate).
  destruct (ParseEKCertificate_wrapped_as_unwrapped (H := Bench.benchLibraries)
              [x30; x01; x07] [x99; x99] Hlen eq_refl)
    as (_ & Hw & Hp & _).
  split; [rewrite Hw | rewrite Hp]; reflexivity.
Defined.

(** Whatever the parsers are, a payload that starts with the tag and declares
    more bytes than it has is rejected for its length field when it is given
    alone, and handed to the parsers when it is given wrapped. *)
Lemma wrapped_prefixed_payload `{Libraries} :
  ParseEKCertificate [x10; x01; x00; x00; x10; x00]
  = Returned (None, Some (ErrNvramHeader 6 16))
  /\ ParseEKCertificate (nvramWrap [x10; x01; x00; x00; x10; x00] [])
     = Returned (parseUnwrapped [x10; x01; x00; x00; x10; x00] true)
  /\ ParseEKCertificate (nvramWrap [x10; x01; x00; x00; x10; x00] [])
     <> ParseEKCertificate [x10; x01; x00; x00; x10; x00].
Proof.
  split; [reflexivity|]. split; [reflexivity|].
  change (ParseEKCertificate (nvramWrap [x10; x01; x00; x00; x10; x00] []))
    with (Returned (parseUnwrapped [x10; x01; x00; x00; x10; x00] true)).
  change (ParseEKCertificate [x10; x01; x00; x00; x10; x00])
    with (Returned (A := option Certificate * option Error)
                   (None, Some (ErrNvramHeader 6 16))).
  unfold parseUnwrapped.
  destruct (x509_ParseCertificate _) as [c1 [e1|]]; [|discriminate].
  destruct (asn1_UnmarshalWithParams_lax _) as [Raw [e2|]].
  - destruct (x509_IsFatal e2); [discriminate|].
    destruct (x509_ParseCertificate Raw) as [c3 [e3|]]; [|discriminate].
    destruct (x509_IsFatal e3); discriminate.
  - destruct (x509_ParseCertificate Raw) as [c3 [e3|]]; [|discriminate].
    destruct (x509_IsFatal e3); discriminate.
Qed.

(** C4, as stated, fails: a payload of eight bytes that is itself a wrapped
    certificate, [10 01 00 00 03] before the certificate [30 01 07]. Given
    alone it is unwrapped and the certificate is returned; given wrapped,
    only the outer prefix is removed, the parsers get the eight bytes, and
    the call fails. *)
Lemma ParseEKCertificate_wrapped_differs :
  1 <= len [x10; x01; x00; x00; x03; x30; x01; x07] <= 65535
  /\ ParseEKCertificate (H := Bench.benchLibraries)
       [x10; x01; x00; x00; x03; x30; x01; x07]
     = Returned (Some [x07], None)
  /\ ParseEKCertificate (H := Bench.benchLibraries)
       (nvramWrap [x10; x01; x00; x00; x03; x30; x01; x07] [])
     = Returned (None, Some (ErrAsn1Unmarshal (H := Bench.benchLibraries)
                               Bench.SyntaxError true))
  /\ ParseEKCertificate (H := Bench.benchLibraries)
       (nvramWrap [x10; x01; x00; x00; x03; x30; x01; x07] [])
     <> ParseEKCertificate (H := Bench.benchLibraries)
          [x10; x01; x00; x00; x03; x30; x01; x07].
Proof.
  split; [vm_compute; split; discriminate|].
  split; [reflexivity|]. split; [reflexivity|]. discriminate.
Qed.

(** The error of a fatally failed lenient extraction tells the two apart
    even when the payload has no prefix. *)
Lemma wrapped_error_reports_wasWrapped :
  ParseEKCertificate (H := Bench.benchLibraries) (nvramWrap [x00] [])
  = Returned (None, Some (ErrAsn1Unmarshal (H := Bench.benchLibraries)
                            Bench.SyntaxError true))
  /\ ParseEKCertificate (H := Bench.benchLibraries) [x00]
     = Returned (None, Some (ErrAsn1Unmarshal (H := Bench.benchLibraries)
                               Bench.SyntaxError false)).
Proof. split; reflexivity. Qed.

(** C5. The input [10 01 00 ff ff 00] has the prefix and declares 65535
    bytes. [certLen+5] wraps around to 4, the length check passes, and the
    slice expression [ekCert[5:4]] panics: the call returns neither a
    certificate nor an error. *)
Theorem ParseEKCertificate_length_overflow_panics `{Libraries} :
  ParseEKCertificate [x10; x01; x00; xff; xff; x00]
  = Panicked (SliceBoundsOutOfRange 5 4 6).
Proof. reflexivity. Qed.

(** *** [readTPM2VendorAttributes] *)

(** An integer converts to a one-byte string exactly when it is at most
    0x7F. *)
Lemma intstring_ascii (x : Z) :
  0 <= x <= 0x7F -> intstring x = [byte_of_Z x].
Proof.
  intros Hx. unfold intstring, encoderune, uint32.
  destruct (Z.leb_spec (- 2 ^ 31) x); [|lia].
  destruct (Z.ltb_spec x (2 ^ 31)); [|lia]. simpl andb. cbv iota.
  rewrite Z.mod_small by lia.
  destruct (Z.leb_spec x 0x7F); [reflexivity | lia].
Qed.

Lemma intstring_longer (x : Z) :
  0x7F < x -> (2 <= length (intstring x))%nat.
Proof.
  intros Hx. unfold intstring.
  destruct ((- 2 ^ 31 <=? x) && (x <? 2 ^ 31)) eqn:Hr.
  - apply andb_true_iff in Hr as [_ Hhi]. apply Z.ltb_lt in Hhi.
    unfold encoderune, uint32. rewrite Z.mod_small by lia.
    destruct (Z.leb_spec x 0x7F); [lia|].
    destruct (x <=? 0x7FF); [simpl; lia|].
    destruct ((MaxRune <? x) || (surrogateMin <=? x) && (x <=? surrogateMax));
      [simpl; lia|].
    destruct (x <=? 0xFFFF); simpl; lia.
  - vm_compute. lia.
Qed.

Lemma intstring_nonempty (x : Z) : (1 <= length (intstring x))%nat.
Proof.
  destruct (Z.le_gt_cases x 0x7F) as [Hle|Hgt].
  - unfold intstring, encoderune.
    repeat match goal with
           | |- context [if ?b then _ else _] => destruct b
           end; simpl; lia.
  - pose proof (intstring_longer x ltac:(lia)). lia.
Qed.

(** A masked value that is smaller than the lowest bit of its mask is 0. *)
Lemma masked_small_is_zero (v mask k : Z) :
  0 <= k -> Z.land mask (Z.ones k) = 0 ->
  0 <= Z.land v mask < 2 ^ k -> Z.land v mask = 0.
Proof.
  intros Hk Hmask Hsmall.
  rewrite <- (Z.mod_small (Z.land v mask) (2 ^ k)) by exact Hsmall.
  rewrite <- Z.land_ones by exact Hk.
  rewrite <- Z.land_assoc, Hmask. apply Z.land_0_r.
Qed.

(** One round of the loop appends the four big-endian octets of the value it
    read exactly when the value is below 0x80, that is, when its three high
    octets are NUL and its low octet is ASCII. *)
Lemma vendorChunk_as_documented_iff (v : Z) :
  0 <= v < 2 ^ 32 ->
  vendorChunk v = BigEndian_PutUint32 v <-> v < 0x80.
Proof.
  intros Hv. split.
  - intros Heq. apply (f_equal (@length byte)) in Heq.
    unfold vendorChunk, BigEndian_PutUint32 in Heq.
    rewrite !length_app in Heq. simpl in Heq.
    pose proof (intstring_nonempty (Z.land v 0xFF000000)) as L3.
    pose proof (intstring_nonempty (Z.land v 0xFF0000)) as L2.
    pose proof (intstring_nonempty (Z.land v 0xFF00)) as L1.
    pose proof (intstring_nonempty (Z.land v 0xFF)) as L0.
    assert (Hpos : forall m, 0 <= Z.land v m)
      by (intros m; apply Z.land_nonneg; left; lia).
    assert (Hsmall : forall m, length (intstring (Z.land v m)) = 1%nat ->
                               0 <= Z.land v m < 2 ^ 7).
    { intros m Hlen. split; [apply Hpos|].
      destruct (Z.le_gt_cases (Z.land v m) 0x7F) as [Hle|Hgt]; [lia|].
      pose proof (intstring_longer _ Hgt). lia. }
    assert (Z3 : Z.land v 0xFF000000 = 0).
    { apply (masked_small_is_zero v _ 7); [lia|reflexivity|].
      apply Hsmall. lia. }
    assert (Z2 : Z.land v 0xFF0000 = 0).
    { apply (masked_small_is_zero v _ 7); [lia|reflexivity|].
      apply Hsmall. lia. }
    assert (Z1 : Z.land v 0xFF00 = 0).
    { apply (masked_small_is_zero v _ 7); [lia|reflexivity|].
      apply Hsmall. lia. }
    assert (Z0 : 0 <= Z.land v 0xFF < 2 ^ 7) by (apply Hsmall; lia).
    assert (Hsplit : v = Z.lor (Z.lor (Z.lor (Z.land v 0xFF000000)
                                             (Z.land v 0xFF0000))
                                      (Z.land v 0xFF00))
                               (Z.land v 0xFF)).
    { rewrite <- !Z.land_lor_distr_r.
      change (Z.lor (Z.lor (Z.lor 0xFF000000 0xFF0000) 0xFF00) 0xFF)
        with (Z.ones 32).
      rewrite Z.land_ones by lia. symmetry. apply Z.mod_small. lia. }
    rewrite Z3, Z2, Z1 in Hsplit.
    change (Z.lor (Z.lor 0 0) 0) with 0 in Hsplit.
    rewrite Z.lor_0_l in Hsplit.
    change (2 ^ 7) with 0x80 in Z0. lia.
  - intros Hlow.
    assert (Hmask : forall m, Z.land (Z.ones 7) m = 0 -> Z.land v m = 0).
    { intros m Hm.
      rewrite <- (Z.mod_small v (2 ^ 7)) by (change (2 ^ 7) with 0x80; lia).
      rewrite <- Z.land_ones by lia.
      rewrite <- Z.land_assoc, Hm. apply Z.land_0_r. }
    assert (Hlowbyte : Z.land v 0xFF = v).
    { change 0xFF with (Z.ones 8). rewrite Z.land_ones by lia.
      apply Z.mod_small. lia. }
    unfold vendorChunk, BigEndian_PutUint32.
    rewrite !Hmask by reflexivity. rewrite Hlowbyte.
    rewrite (intstring_ascii v) by lia.
    rewrite !Z.shiftr_div_pow2 by lia.
    rewrite !Z.div_small by lia. reflexivity.
Qed.

(** C1. On a chip whose four vendor-string reads succeed with the values
    0x494E5443, 0, 0, 0 (the octets of "INTC" and twelve NULs), the function
    does not return "INTC": every mask is converted to a string without
    being shifted down, and the conversion of an integer to a string is the
    UTF-8 encoding of a code point, so the vendor string is
    [ef bf bd ef bf bd e5 90 80 43]. *)
Theorem readTPM2VendorAttributes_vendor_not_as_documented :
  let run := readTPM2VendorAttributes (Bench.world 8 256 []) in
  take 4 (transcript (snd run))
  = [ XGetCapability 6 1 0x106
        ([TaggedProperty 0x106 0x494E5443], false, None);
      XGetCapability 6 1 0x107 ([TaggedProperty 0x107 0], false, None);
      XGetCapability 6 1 0x108 ([TaggedProperty 0x108 0], false, None);
      XGetCapability 6 1 0x109 ([TaggedProperty 0x109 0], false, None) ]
  /\ vendorString [0x494E5443; 0; 0; 0] = list_byte_of_string "INTC"
  /\ exists info,
       fst run = Returned (info, None)
       /\ vendor info = [xef; xbf; xbd; xef; xbf; xbd; xe5; x90; x80; x43]
       /\ vendor info <> vendorString [0x494E5443; 0; 0; 0].
Proof.
  cbv zeta. split; [reflexivity|]. split; [reflexivity|].
  eexists. split; [reflexivity|]. split; [reflexivity|].
  discriminate.
Qed.

(** *** [quote20] *)

Section quote20_properties.
Context `{Chip}.

Lemma allPCRs_24 :
  allPCRs 24 = [0; 1; 2; 3; 4; 5; 6; 7; 8; 9; 10; 11; 12; 13; 14; 15; 16;
                17; 18; 19; 20; 21; 22; 23].
Proof. reflexivity. Qed.

(** One call sends one command, and what it returns is built from the answer
    to that command. *)
Lemma quote20_exchange (aikHandle alg : Z) (toQuote : bytes) (w : World) :
  let sel := {| Hash := alg; PCRs := allPCRs 24 |} in
  let answer := tpm2_Quote (chip w) aikHandle [] [] toQuote sel AlgNull in
  let w' := snd (quote20 aikHandle alg toQuote w) in
  transcript w'
  = transcript w ++ [XQuote aikHandle [] [] toQuote sel AlgNull (snd answer)]
  /\ chip w' = fst answer
  /\ pkg w' = pkg w
  /\ forall q err,
       fst (quote20 aikHandle alg toQuote w) = Returned (Some q, err) ->
       q_Quote q = fst (fst (snd answer)).
Proof.
  cbv zeta. unfold quote20, bind, cmdQuote, exchange, lift, ret.
  destruct (tpm2_Quote (chip w) aikHandle [] [] toQuote
              {| Hash := alg; PCRs := allPCRs 24 |} AlgNull)
    as [c [[quote sig] [e|]]]; simpl.
  - repeat split; intros; discriminate.
  - destruct sig as [s|]; simpl.
    + destruct (RSA s) as [rsa|]; simpl.
      * destruct (tpmutil_Pack (Alg s) (HashAlg rsa) (Signature_ rsa))
          as [rawSig err']; simpl.
        repeat split. intros q err [= <- _]. reflexivity.
      * repeat split; intros; discriminate.
    + repeat split; intros; discriminate.
Qed.

(** The error of [tpm2.Quote] comes back with a nil [*Quote]. *)
Lemma quote20_command_error (aikHandle alg : Z) (toQuote : bytes)
    (w : World) (c : chip_state) (resp : bytes * option Signature)
    (e : lib_error) :
  tpm2_Quote (chip w) aikHandle [] []
             toQuote {| Hash := alg; PCRs := allPCRs 24 |} AlgNull
  = (c, (resp, Some e)) ->
  fst (quote20 aikHandle alg toQuote w) = Returned (None, Some (ErrLibrary e)).
Proof.
  intros Hq. unfold quote20, bind, cmdQuote, exchange, lift, ret.
  rewrite Hq. destruct resp. reflexivity.
Qed.

(** The error of [tpmutil.Pack] comes back next to a [*Quote] that is not
    nil. *)
Lemma quote20_pack_error (aikHandle alg : Z) (toQuote : bytes)
    (w : World) (c : chip_state) (quote rawSig : bytes) (s : Signature)
    (rsa : SignatureRSA) (e : lib_error) :
  tpm2_Quote (chip w) aikHandle [] []
             toQuote {| Hash := alg; PCRs := allPCRs 24 |} AlgNull
  = (c, (quote, Some s, None)) ->
  RSA s = Some rsa ->
  tpmutil_Pack (Alg s) (HashAlg rsa) (Signature_ rsa) = (rawSig, Some e) ->
  fst (quote20 aikHandle alg toQuote w)
  = Returned (Some {| q_Version := TPMVersion20; q_Quote := quote;
                      q_Signature := rawSig |},
              Some (ErrLibrary e)).
Proof.
  intros Hq Hrsa Hpack. unfold quote20, bind, cmdQuote, exchange, lift, ret.
  rewrite Hq. simpl. rewrite Hrsa. simpl. rewrite Hpack. reflexivity.
Qed.

End quote20_properties.

(** C6. Every call of [quote20] sends exactly one [Quote] command, over the
    selection of the 24 registers 0 to 23 under the hash algorithm given,
    with the caller's nonce; calls made one after the other send one command
    each, in order, each with the nonce of its own call; and the bytes a call
    returns are those of the answer to its own command. *)
Theorem quote20_fresh_command_over_full_bank `{Chip}
    (calls : list QuoteCall) (w : World) :
  (exists sent,
     transcript (quoteEach calls w) = transcript w ++ sent
     /\ Forall2 isQuoteOf calls sent)
  /\ forall call q err,
       fst (quote20 (handle call) (hashAlg call) (nonce call) w)
       = Returned (Some q, err) ->
       exists answer,
         tpm2_Quote (chip w) (handle call) [] [] (nonce call)
           {| Hash := hashAlg call;
              PCRs := [0; 1; 2; 3; 4; 5; 6; 7; 8; 9; 10; 11; 12; 13; 14; 15;
                       16; 17; 18; 19; 20; 21; 22; 23] |} AlgNull = answer
         /\ q_Quote q = fst (fst (snd answer))
         /\ q_Version q = TPMVersion20.
Proof.
  split.
  - revert w. induction calls as [|call calls IH]; intros w.
    + exists []. simpl. rewrite app_nil_r. split; [reflexivity | constructor].
    + change (quoteEach (call :: calls) w)
        with (quoteEach calls
                (snd (quote20 (handle call) (hashAlg call) (nonce call) w))).
      destruct (IH (snd (quote20 (handle call) (hashAlg call) (nonce call) w)))
        as (sent & Htr & Hall).
      destruct (quote20_exchange (handle call) (hashAlg call) (nonce call) w)
        as (Hone & _).
      rewrite Htr, Hone, <- app_assoc.
      eexists (_ :: sent). split; [reflexivity|].
      constructor; [|exact Hall]. eexists. rewrite allPCRs_24. reflexivity.
  - intros call q err Hret.
    destruct (quote20_exchange (handle call) (hashAlg call) (nonce call) w)
      as (_ & _ & _ & Hq).
    eexists. split; [reflexivity|]. split.
    + rewrite (Hq q err Hret), allPCRs_24. reflexivity.
    + revert Hret. unfold quote20, bind, cmdQuote, exchange, lift, ret.
      destruct (tpm2_Quote _ _ _ _ _ _ _) as [c [[quote sig] [e|]]]; simpl;
        [discriminate|].
      destruct sig as [s|]; simpl; [|discriminate].
      destruct (RSA s) as [rsa|]; simpl; [|discriminate].
      destruct (tpmutil_Pack _ _ _) as [rawSig err']; simpl.
      intros [= <- _]. reflexivity.
Qed.

(** C8. On a chip whose signature is too long for the packer, [quote20]
    returns the packer's error together with a [*Quote] that is not nil and
    whose [Signature] is empty, while the error of the [Quote] command itself
    comes back with a nil [*Quote]. *)
Theorem quote20_returns_quote_with_pack_error :
  exists q,
    fst (quote20 0x81010002 AlgSHA256 [x01; x02] (Bench.world 8 65536 []))
    = Returned (Some q, Some (ErrLibrary (H := Bench.benchLibraries)
                                         Bench.SizeTooLarge))
    /\ q_Version q = TPMVersion20
    /\ q_Signature q = [].
Proof.
  eexists. split.
  - eapply (quote20_pack_error (H0 := Bench.benchChip)).
    + reflexivity.
    + reflexivity.
    + cbn [tpmutil_Pack Bench.benchLibraries Alg HashAlg Signature_].
      unfold Bench.pack, len. rewrite length_replicate. reflexivity.
  - split; reflexivity.
Qed.

(** *** [intelEKURL] *)

Lemma bigEndianValue_snoc (l : bytes) (b : byte) :
  bigEndianValue (l ++ [b]) = bigEndianValue l * 256 + byte_to_Z b.
Proof. unfold bigEndianValue. rewrite fold_left_app. reflexivity. Qed.

Lemma be_bytes_value (n : nat) (x : Z) :
  0 <= x -> bigEndianValue (be_bytes n x) = x mod 256 ^ Z.of_nat n.
Proof.
  revert x. induction n as [|n IH]; intros x Hx.
  - simpl. rewrite Z.mod_1_r. reflexivity.
  - cbn [be_bytes]. rewrite bigEndianValue_snoc, byte_to_of_Z.
    rewrite IH by (apply Z.div_pos; lia).
    rewrite Nat2Z.inj_succ, Z.pow_succ_r by lia.
    assert (Hp : 0 < 256 ^ Z.of_nat n) by (apply Z.pow_pos_nonneg; lia).
    rewrite (Z.rem_mul_r x 256 (256 ^ Z.of_nat n)) by lia. lia.
Qed.

Lemma be_bytes_cons (n : nat) (x : Z) :
  0 <= x ->
  be_bytes (S n) x = byte_of_Z (x / 256 ^ Z.of_nat n) :: be_bytes n x.
Proof.
  revert x. induction n as [|n IH]; intros x Hx.
  - simpl. rewrite Z.div_1_r. reflexivity.
  - change (be_bytes (S (S n)) x)
      with (be_bytes (S n) (x / 256) ++ [byte_of_Z x]).
    rewrite IH by (apply Z.div_pos; lia).
    rewrite Nat2Z.inj_succ, Z.pow_succ_r by lia.
    assert (Hp : 0 < 256 ^ Z.of_nat n) by (apply Z.pow_pos_nonneg; lia).
    rewrite Z.div_div by lia. reflexivity.
Qed.

(** The byte count [big_Int_Bytes] takes is the least that holds the
    value. *)
Lemma byte_count_bounds (a : Z) :
  0 < a ->
  let n := Z.log2 a / 8 in
  256 ^ n <= a < 256 ^ (n + 1).
Proof.
  intros Ha n.
  pose proof (Z.log2_nonneg a) as Hl.
  pose proof (Z.log2_spec a Ha) as [Hlo Hhi].
  assert (Hn : 0 <= n) by (apply Z.div_pos; lia).
  assert (Hdm : 8 * n <= Z.log2 a < 8 * n + 8).
  { unfold n. pose proof (Z.div_mod (Z.log2 a) 8 ltac:(lia)).
    pose proof (Z.mod_pos_bound (Z.log2 a) 8 ltac:(lia)). lia. }
  change 256 with (2 ^ 8). rewrite <- !Z.pow_mul_r by lia. split.
  - etransitivity; [|exact Hlo]. apply Z.pow_le_mono_r; lia.
  - eapply Z.lt_le_trans; [exact Hhi|]. apply Z.pow_le_mono_r; lia.
Qed.

Lemma big_Int_Bytes_value (x : Z) :
  bigEndianValue (big_Int_Bytes x) = Z.abs x.
Proof.
  unfold big_Int_Bytes.
  destruct (Z.eqb_spec (Z.abs x) 0) as [H0|H0]; [rewrite H0; reflexivity|].
  pose proof (Z.abs_nonneg x) as Hx.
  pose proof (byte_count_bounds (Z.abs x) ltac:(lia)) as [_ Hhi].
  assert (Hn : 0 <= Z.log2 (Z.abs x) / 8)
    by (apply Z.div_pos; [apply Z.log2_nonneg | lia]).
  rewrite be_bytes_value by lia. rewrite Z2Nat.id by lia.
  apply Z.mod_small. lia.
Qed.

Lemma big_Int_Bytes_no_leading_zero (x : Z) :
  head (big_Int_Bytes x) <> Some x00.
Proof.
  unfold big_Int_Bytes.
  destruct (Z.eqb_spec (Z.abs x) 0) as [H0|H0]; [discriminate|].
  pose proof (Z.abs_nonneg x) as Hx.
  pose proof (byte_count_bounds (Z.abs x) ltac:(lia)) as [Hlo Hhi].
  assert (Hn : 0 <= Z.log2 (Z.abs x) / 8)
    by (apply Z.div_pos; [apply Z.log2_nonneg | lia]).
  set (n := Z.log2 (Z.abs x) / 8) in *.
  replace (Z.to_nat (n + 1)) with (S (Z.to_nat n)) by lia.
  rewrite be_bytes_cons by lia. rewrite Z2Nat.id by lia. simpl.
  intros [= Hb].
  assert (Hp : 0 < 256 ^ n) by (apply Z.pow_pos_nonneg; lia).
  assert (Hq : 1 <= Z.abs x / 256 ^ n < 256).
  { split.
    - apply Z.div_le_lower_bound; lia.
    - apply Z.div_lt_upper_bound; [lia|].
      rewrite Z.pow_add_r in Hhi by lia. lia. }
  apply (f_equal byte_to_Z) in Hb. rewrite byte_to_of_Z in Hb.
  rewrite Z.mod_small in Hb by lia. change (byte_to_Z x00) with 0 in Hb. lia.
Qed.

(** The encoder on the test vectors of RFC 4648, section 10, and on the two
    characters that set the URL alphabet apart. *)
Lemma EncodeToString_vectors :
  map (fun s => string_of_list_byte (EncodeToString (list_byte_of_string s)))
      [""; "f"; "fo"; "foo"; "foob"; "fooba"; "foobar"]%string
  = [""; "Zg=="; "Zm8="; "Zm9v"; "Zm9vYg=="; "Zm9vYmE="; "Zm9vYmFy"]%string
  /\ string_of_list_byte (EncodeToString [xfb; xff]) = "-_8="%string.
Proof. split; reflexivity. Qed.

(** C7. [intelEKURL ekPub] is the service URL followed by the base64url
    encoding of the SHA-256 digest of the modulus bytes and the bytes
    [01 00 01]; the modulus bytes are the big-endian digits of [N] without a
    leading zero; keys with the same modulus get the same URL. *)
Theorem intelEKURL_is_service_url_and_key_digest `{Libraries}
    (ekPub : PublicKey) :
  intelEKURL ekPub
  = list_byte_of_string "https://ekop.intel.com/ekcertservice/"
    ++ EncodeToString
         (sha256_Sum256 (big_Int_Bytes (N ekPub) ++ [x01; x00; x01]))
  /\ bigEndianValue (big_Int_Bytes (N ekPub)) = Z.abs (N ekPub)
  /\ head (big_Int_Bytes (N ekPub)) <> Some x00
  /\ forall other : PublicKey,
       N other = N ekPub -> intelEKURL other = intelEKURL ekPub.
Proof.
  split; [reflexivity|].
  split; [apply big_Int_Bytes_value|].
  split; [apply big_Int_Bytes_no_leading_zero|].
  intros other HN. unfold intelEKURL. rewrite HN. reflexivity.
Qed.

(** *** The package-level templates *)

Section Frame.
Context `{Chip}.

Lemma frames_ret {A} (a : A) : frames (ret a).
Proof. intros w. reflexivity. Qed.

Lemma frames_lift {A} (o : Outcome A) : frames (lift o).
Proof. intros w. reflexivity. Qed.

Lemma frames_exchange {A} (step : chip_state -> chip_state * A)
    (record : A -> Exchange) :
  frames (exchange step record).
Proof. intros w. unfold exchange. destruct (step (chip w)). reflexivity. Qed.

Lemma frames_bind {A B} (m : M A) (k : A -> M B) :
  frames m -> (forall a, frames (k a)) -> frames (bind m k).
Proof.
  intros Hm Hk w. unfold bind. specialize (Hm w).
  destruct (m w) as [[a|why] w']; simpl in *.
  - rewrite Hk. exact Hm.
  - exact Hm.
Qed.

Ltac frame :=
  unfold cmdGetCapability, cmdNVReadEx, cmdQuote, cmdReadPCRs;
  repeat first
    [ assumption
    | apply frames_ret
    | apply frames_lift
    | apply frames_exchange
    | apply frames_bind; [|intros]
    | match goal with
      | |- frames (match ?x with _ => _ end) => destruct x
      | |- frames (if ?x then _ else _) => destruct x
      end ].

Lemma vendorLoop_frames (todo : list Z) (vendorInfo : bytes) :
  frames (vendorLoop todo vendorInfo).
Proof.
  revert vendorInfo. induction todo as [|i rest IH]; intros vendorInfo;
    cbn [vendorLoop]; frame. apply IH.
Qed.

Lemma readTPM2VendorAttributes_frames : frames readTPM2VendorAttributes.
Proof.
  unfold readTPM2VendorAttributes.
  apply frames_bind; [apply vendorLoop_frames | intros r]. frame.
Qed.

Lemma readEKCertFromNVRAM20_frames : frames readEKCertFromNVRAM20.
Proof. unfold readEKCertFromNVRAM20. frame. Qed.

Lemma quote20_frames (aikHandle alg : Z) (toQuote : bytes) :
  frames (quote20 aikHandle alg toQuote).
Proof. unfold quote20. frame. Qed.

Lemma readRounds_frames (rounds : nat) (numPCRs alg : Z)
    (out : gmap Z bytes) :
  frames (readRounds rounds numPCRs alg out).
Proof.
  revert out. induction rounds as [|rounds IH]; intros out;
    cbn [readRounds]; frame. apply IH.
Qed.

Lemma readAllPCRs20_frames (alg : Z) : frames (readAllPCRs20 alg).
Proof.
  unfold readAllPCRs20.
  apply frames_bind; [apply readRounds_frames | intros r]. frame.
Qed.

Lemma after_frames (call : Call) (w : World) : pkg (after call w) = pkg w.
Proof.
  destruct call; simpl; try reflexivity.
  - apply readTPM2VendorAttributes_frames.
  - apply readEKCertFromNVRAM20_frames.
  - apply quote20_frames.
  - apply readAllPCRs20_frames.
Qed.

Lemma afterAll_frames (calls : list Call) (w : World) :
  pkg (afterAll calls w) = pkg w.
Proof.
  revert w. induction calls as [|call calls IH]; intros w; [reflexivity|].
  change (afterAll (call :: calls) w) with (afterAll calls (after call w)).
  rewrite IH. apply after_frames.
Qed.

End Frame.

(** C9. Whatever calls of the functions of the file have been made since the
    package was initialised, [aikTemplate] is the value it was initialised
    with: an RSA key of 2048 bits with name algorithm SHA-256, the attributes
    [FlagSignerDefault] (which include signing and exclude decryption), and
    the signing scheme RSASSA with SHA-256. *)
Theorem aikTemplate_is_fixed_signing_template `{Chip}
    (c : chip_state) (calls : list Call) :
  let t := aikTemplate (pkg (afterAll calls (processStart c))) in
  t = aikTemplate init_globals
  /\ Type_ t = AlgRSA
  /\ NameAlg t = AlgSHA256
  /\ Attributes t = FlagSignerDefault
  /\ Z.land (Attributes t) FlagSign = FlagSign
  /\ Z.land (Attributes t) FlagDecrypt = 0
  /\ RSAParameters t
     = Some {| Symmetric := None;
               Sign := Some {| sig_Alg := AlgRSASSA; sig_Hash := AlgSHA256 |};
               KeyBits := 2048;
               ModulusRaw := [] |}.
Proof.
  cbv zeta. rewrite afterAll_frames. simpl. repeat split.
Qed.

(** *** Bytes of a 32-bit value *)

Lemma lor_shiftl_bytes (b0 b1 b2 b3 : byte) :
  Z.lor (Z.lor (Z.lor (byte_to_Z b3) (Z.shiftl (byte_to_Z b2) 8))
               (Z.shiftl (byte_to_Z b1) 16))
        (Z.shiftl (byte_to_Z b0) 24)
  = ((byte_to_Z b0 * 256 + byte_to_Z b1) * 256 + byte_to_Z b2) * 256
    + byte_to_Z b3.
Proof.
  pose proof (byte_to_Z_range b0). pose proof (byte_to_Z_range b1).
  pose proof (byte_to_Z_range b2). pose proof (byte_to_Z_range b3).
  assert (Hdisjoint : forall lo hi k, 0 <= lo < 2 ^ k -> 0 <= k ->
            Z.lor lo (Z.shiftl hi k) = lo + hi * 2 ^ k).
  { intros lo hi k Hlo Hk. rewrite <- Z.add_nocarry_lor.
    - rewrite Z.shiftl_mul_pow2 by lia. reflexivity.
    - apply Z.bits_inj'. intros n Hn. rewrite Z.land_spec, Z.bits_0.
      destruct (Z.lt_ge_cases n k) as [Hlt|Hge].
      + rewrite Z.shiftl_spec_low by lia. apply andb_false_r.
      + rewrite <- (Z.mod_small lo (2 ^ k)) by lia.
        rewrite Z.mod_pow2_bits_high by lia. reflexivity. }
  rewrite (Hdisjoint (byte_to_Z b3) _ 8) by lia.
  rewrite (Hdisjoint _ _ 16) by lia.
  rewrite (Hdisjoint _ _ 24) by lia. lia.
Qed.

(** *** [readAllPCRs20] *)

Section readAllPCRs20_properties.
Context `{Chip}.

Lemma uint32_small (z : Z) : 0 <= z < 2 ^ 32 -> uint32 z = z.
Proof. intros Hz. unfold uint32. apply Z.mod_small. exact Hz. Qed.

(** The selection of a round is the list of the registers below 24 that
    [out] does not hold, in increasing order. *)
Lemma missingPCRs_filter (out : gmap Z bytes) :
  missingPCRs 24 out = filter (fun pcr => pcr ∉ dom out) (seqZ 0 24).
Proof.
  unfold missingPCRs.
  assert (Hgen : forall (l : list Z) (acc : list Z),
            (forall x, x ∈ l -> 0 <= x < 2 ^ 32) ->
            fold_left
              (fun PCRs pcr =>
                 match out !! uint32 pcr with
                 | Some _ => PCRs
                 | None => PCRs ++ [pcr]
                 end) l acc
            = acc ++ filter (fun pcr => pcr ∉ dom out) l).
  { induction l as [|x l IH]; intros acc Hl.
    - simpl. rewrite app_nil_r. reflexivity.
    - cbn [fold_left]. rewrite uint32_small by (apply Hl; left).
      rewrite IH by (intros y Hy; apply Hl; right; exact Hy).
      rewrite filter_cons.
      destruct (out !! x) as [d|] eqn:Hx.
      + rewrite decide_False; [reflexivity|].
        intros Hn. apply not_elem_of_dom in Hn. congruence.
      + rewrite decide_True by (apply not_elem_of_dom; exact Hx).
        rewrite <- app_assoc. reflexivity. }
  rewrite Hgen; [reflexivity|].
  intros x Hx. apply elem_of_seqZ in Hx. lia.
Qed.

(** Keeping an answer whose keys are register numbers adds its keys. *)
Lemma keepPCRs_dom (r out : gmap Z bytes) :
  (forall pcr, pcr ∈ dom r -> 0 <= pcr < 2 ^ 32) ->
  dom (keepPCRs r out) = dom r ∪ dom out.
Proof.
  unfold keepPCRs.
  apply (map_fold_weak_ind
           (fun acc (m : gmap Z bytes) =>
              (forall pcr, pcr ∈ dom m -> 0 <= pcr < 2 ^ 32) ->
              dom acc = dom m ∪ dom out)).
  - intros _. rewrite dom_empty_L. set_solver.
  - intros i x m acc Hi IH Hm.
    rewrite uint32_small by (apply Hm; rewrite dom_insert_L; set_solver).
    rewrite !dom_insert_L, IH; [set_solver|].
    intros pcr Hp. apply Hm. rewrite dom_insert_L. set_solver.
Qed.

Lemma obtained_snoc (xs : list Exchange) (x : Exchange) :
  obtained (xs ++ [x]) = obtained xs ∪ supplied x.
Proof.
  unfold obtained. rewrite fmap_app, union_list_app_L. simpl.
  set_solver.
Qed.

Lemma stillMissing_below (earlier : list Exchange) (pcr : Z) :
  pcr ∈ stillMissing earlier -> 0 <= pcr < 24.
Proof.
  unfold stillMissing. rewrite list_elem_of_filter, elem_of_seqZ. lia.
Qed.

Lemma bank_size : size (list_to_set (seqZ 0 24) : gset Z) = 24%nat.
Proof.
  rewrite size_list_to_set by apply NoDup_seqZ.
  rewrite length_seqZ. reflexivity.
Qed.

(** The loop, from any round on: [earlier] are the exchanges of the rounds
    before, and [out] holds what they supplied. *)
Lemma readRounds_spec (alg : Z) :
  partialReads ->
  forall (rounds : nat) (out : gmap Z bytes) (w : World)
         (earlier : list Exchange),
    dom out = obtained earlier ->
    dom out ⊆ list_to_set (seqZ 0 24) ->
    exists sent,
      transcript (snd (readRounds rounds 24 alg out w))
      = transcript w ++ sent
      /\ (length sent <= rounds)%nat
      /\ (forall pre x post,
            sent = pre ++ x :: post ->
            exists resp,
              x = XReadPCRs {| Hash := alg;
                               PCRs := stillMissing (earlier ++ pre) |} resp)
      /\ match fst (readRounds rounds 24 alg out w) with
         | Returned (inl out') => dom out' ⊆ list_to_set (seqZ 0 24)
         | Returned (inr _) => True
         | Panicked _ => False
         end.
Proof.
  intros Hpart. induction rounds as [|rounds IH];
    intros out w earlier Hdom Hsub.
  - exists []. simpl. rewrite app_nil_r. repeat split; [lia| |exact Hsub].
    intros pre x post Hs. destruct pre; discriminate.
  - cbn [readRounds]. unfold bind, cmdReadPCRs, exchange.
    rewrite missingPCRs_filter, Hdom.
    fold (stillMissing earlier).
    set (sel := {| Hash := alg; PCRs := stillMissing earlier |}).
    destruct (tpm2_ReadPCRs (chip w) sel) as [c [r [e|]]] eqn:Hstep.
    + exists [XReadPCRs sel (r, Some e)]. simpl.
      repeat split; [lia|].
      intros pre x post Hs.
      destruct pre as [|y pre]; [|destruct pre; discriminate].
      injection Hs as <- _. rewrite app_nil_r. eexists. reflexivity.
    + assert (Hkeys : forall pcr, pcr ∈ dom r -> 0 <= pcr < 24).
      { intros pcr Hp. apply (stillMissing_below earlier).
        exact (Hpart _ _ _ _ Hstep pcr Hp). }
      assert (Hdom' : dom (keepPCRs r out)
                      = obtained (earlier ++ [XReadPCRs sel (r, None)])).
      { rewrite obtained_snoc, keepPCRs_dom, Hdom; [set_solver|].
        intros pcr Hp. specialize (Hkeys pcr Hp). lia. }
      assert (Hsub' : dom (keepPCRs r out) ⊆ list_to_set (seqZ 0 24)).
      { rewrite keepPCRs_dom by (intros pcr Hp; specialize (Hkeys pcr Hp); lia).
        apply union_subseteq. split; [|exact Hsub].
        intros pcr Hp. apply elem_of_list_to_set, elem_of_seqZ.
        specialize (Hkeys pcr Hp). lia. }
      cbv zeta.
      destruct (Z.of_nat (size (keepPCRs r out)) =? 24).
      * exists [XReadPCRs sel (r, None)]. simpl.
        repeat split; [lia| |exact Hsub'].
        intros pre x post Hs.
        destruct pre as [|y pre]; [|destruct pre; discriminate].
        injection Hs as <- _. rewrite app_nil_r. eexists. reflexivity.
      * set (w' := {| pkg := pkg w; chip := c;
                      transcript := transcript w ++ [XReadPCRs sel (r, None)] |}).
        destruct (IH (keepPCRs r out) w'
                     (earlier ++ [XReadPCRs sel (r, None)]) Hdom' Hsub')
          as (sent & Htr & Hlen & Hreq & Hres).
        exists (XReadPCRs sel (r, None) :: sent).
        split; [rewrite Htr; simpl; rewrite <- app_assoc; reflexivity|].
        split; [simpl; lia|]. split; [|exact Hres].
        intros pre x post Hs. destruct pre as [|y pre].
        -- injection Hs as <- _. rewrite app_nil_r. eexists. reflexivity.
        -- injection Hs as <- Hs. destruct (Hreq pre x post Hs) as [resp ->].
           exists resp. rewrite <- app_assoc. reflexivity.
Qed.

(** A map over the registers below 24 that has 24 entries has them all. *)
Lemma full_bank (out : gmap Z bytes) :
  dom out ⊆ list_to_set (seqZ 0 24) ->
  size out = 24%nat ->
  forall pcr, 0 <= pcr < 24 -> is_Some (out !! pcr).
Proof.
  intros Hsub Hsize pcr Hp. apply elem_of_dom.
  rewrite (set_subseteq_size_eq _ _ Hsub).
  - apply elem_of_list_to_set, elem_of_seqZ. lia.
  - rewrite bank_size, size_dom, Hsize. reflexivity.
Qed.

End readAllPCRs20_properties.

(** C2. On a chip whose answers to [ReadPCRs] hold values only for registers
    that were asked for, [readAllPCRs20] sends at most 24 [ReadPCRs] commands
    and nothing else; every one of them asks, under the algorithm given, for
    exactly the registers 0 to 23 that the answers before it have not
    supplied; and the call returns either a map of 24 entries with a digest
    for every register 0 to 23, or no map and an error. *)
Theorem readAllPCRs20_all_or_error `{Chip} (alg : Z) (w : World) :
  partialReads ->
  exists sent,
    transcript (snd (readAllPCRs20 alg w)) = transcript w ++ sent
    /\ (length sent <= 24)%nat
    /\ (forall pre x post,
          sent = pre ++ x :: post ->
          exists resp,
            x = XReadPCRs {| Hash := alg; PCRs := stillMissing pre |} resp)
    /\ ((exists out,
           fst (readAllPCRs20 alg w) = Returned (Some out, None)
           /\ size out = 24%nat
           /\ forall pcr, 0 <= pcr < 24 -> is_Some (out !! pcr))
        \/ (exists e, fst (readAllPCRs20 alg w) = Returned (None, Some e))).
Proof.
  intros Hpart.
  destruct (readRounds_spec alg Hpart 24 ∅ w [])
    as (sent & Htr & Hlen & Hreq & Hres).
  { rewrite dom_empty_L. reflexivity. }
  { rewrite dom_empty_L. apply empty_subseteq. }
  exists sent. unfold readAllPCRs20, bind. cbv zeta.
  change (Z.to_nat 24) with 24%nat.
  destruct (readRounds 24 24 alg ∅ w) as [[[out|e]|why] w'] eqn:Hrun;
    simpl in Htr, Hres; [| |contradiction].
  - destruct (Z.eqb_spec (Z.of_nat (size out)) 24) as [Hfull|Hpartial]; simpl.
    + split; [exact Htr|]. split; [exact Hlen|]. split; [exact Hreq|].
      left. exists out. split; [reflexivity|].
      assert (Hsize : size out = 24%nat) by lia.
      split; [exact Hsize|]. apply full_bank; assumption.
    + split; [exact Htr|]. split; [exact Hlen|]. split; [exact Hreq|].
      right. eexists. reflexivity.
  - simpl. split; [exact Htr|]. split; [exact Hlen|]. split; [exact Hreq|].
    right. eexists. reflexivity.
Qed.

(** The bench chip answers for the first [perRead] registers asked for. *)
Lemma bench_partialReads : partialReads (H0 := Bench.benchChip).
Proof.
  intros c sel c' r Hstep pcr Hp. simpl in Hstep.
  injection Hstep as _ <-.
  rewrite dom_list_to_map_L, <- list_fmap_compose in Hp.
  apply elem_of_list_to_set, list_elem_of_fmap in Hp as (x & -> & Hx).
  simpl. exact (subseteq_take _ _ _ Hx).
Qed.

(** One register for each command: all 24 rounds are used, and the bank is
    complete after the last. *)
Lemma readAllPCRs20_all_or_error_witness :
  partialReads (H0 := Bench.benchChip)
  /\ exists sent,
       transcript (snd (readAllPCRs20 AlgSHA256 (Bench.world 1 256 [])))
       = [] ++ sent
       /\ (length sent <= 24)%nat
       /\ (forall pre x post,
             sent = pre ++ x :: post ->
             exists resp,
               x = XReadPCRs {| Hash := AlgSHA256; PCRs := stillMissing pre |}
                             resp)
       /\ ((exists out,
              fst (readAllPCRs20 AlgSHA256 (Bench.world 1 256 []))
              = Returned (Some out, None)
              /\ size out = 24%nat
              /\ forall pcr, 0 <= pcr < 24 -> is_Some (out !! pcr))
           \/ (exists e,
                 fst (readAllPCRs20 AlgSHA256 (Bench.world 1 256 []))
                 = Returned (None, Some e))).
Proof.
  split; [exact bench_partialReads|].
  exact (readAllPCRs20_all_or_error AlgSHA256 (Bench.world 1 256 [])
           bench_partialReads).
Defined.

(** On the bench: three rounds at eight registers a command, twenty-four
    rounds at one, and twenty-four rounds and an error when the chip supplies
    nothing. *)
Lemma readAllPCRs20_on_bench :
  (let run := readAllPCRs20 AlgSHA256 (Bench.world 8 256 []) in
   length (transcript (snd run)) = 3%nat
   /\ exists out, fst run = Returned (Some out, None) /\ size out = 24%nat)
  /\ length (transcript (snd (readAllPCRs20 AlgSHA256 (Bench.world 1 256 []))))
     = 24%nat
  /\ (let run := readAllPCRs20 AlgSHA256 (Bench.world 0 256 []) in
      length (transcript (snd run)) = 24%nat
      /\ fst run = Returned (None, Some (ErrFailedToReadAllPCRs 0))).
Proof.
  split; [|split]; cbv zeta.
  - split; [reflexivity|]. eexists. split; reflexivity.
  - reflexivity.
  - split; reflexivity.
Qed.

(** ** More of [readTPM2VendorAttributes] *)

Section readTPM2VendorAttributes_run.
Context `{Chip}.

#[local] Arguments vendorChunk : simpl never.
#[local] Arguments Trim1 : simpl never.

Ltac open_run :=
  repeat (progress
            (unfold bind, cmdGetCapability, exchange, lift, ret, index;
             repeat match goal with
                    | |- context [(?x :: ?l) !! Z.to_nat 0] =>
                      change ((x :: l) !! Z.to_nat 0) with (Some x)
                    | |- context [@nil ?A !! Z.to_nat 0] =>
                      change (@nil A !! Z.to_nat 0) with (@None A)
                    end;
             cbn)).

Ltac ask_chip :=
  match goal with
  | |- context [tpm2_GetCapability ?c ?a ?b ?p] =>
    let caps := fresh "caps" in
    destruct (tpm2_GetCapability c a b p) as [? [[caps ?] [?|]]]; open_run;
    [ | destruct caps as [|[? ?|?] ?]; open_run ]
  end.

(** What a call does, by the way it ends. *)
Lemma readTPM2VendorAttributes_run (w : World) :
  exists sent,
    transcript (snd (readTPM2VendorAttributes w)) = transcript w ++ sent
    /\ asRequest <$> sent `prefix_of` Some <$> infoRequests
    /\ match fst (readTPM2VendorAttributes w) with
       | Returned (info, None) =>
         exists v0 v1 v2 v3 manu fw,
           reported <$> sent = Some <$> [v0; v1; v2; v3; manu; fw]
           /\ info = {| vendor := Trim1 (vendorChunk v0 ++ vendorChunk v1
                                         ++ vendorChunk v2 ++ vendorChunk v3)
                                        x00;
                        manufacturer := manu;
                        fwMajor := Z.shiftr (Z.land fw 0xffff0000) 16;
                        fwMinor := Z.land fw 0x0000ffff |}
       | Returned (info, Some e) =>
         info = tpm20Info_zero
         /\ exists x, last sent = Some x /\ reported x = None
       | Panicked why =>
         why = IndexOutOfRange 0 0
         /\ exists x, last sent = Some x /\ answeredEmpty x
       end.
Proof.
  unfold readTPM2VendorAttributes.
  change (seqZ 0 4) with [0; 1; 2; 3]. open_run.
  repeat ask_chip.
  all: eexists; (split; [rewrite <- ?app_assoc; reflexivity|]).
  all: cbn.
  all: (split; [eexists; reflexivity|]).
  all: try (split; [reflexivity|]; eexists; split; [reflexivity|]).
  all: try reflexivity.
  all: try (do 4 eexists; reflexivity).
  all: try (match goal with
            | |- reported (XGetCapability _ _ _ (?caps, _, Some _)) = None =>
              destruct caps as [|[] ?]; reflexivity
            end).
  do 6 eexists. split; [reflexivity|]. rewrite <- !app_assoc. reflexivity.
Qed.

End readTPM2VendorAttributes_run.

(** *** Trimming *)

Lemma trimLeftByte_split (s : bytes) (c : byte) :
  exists n, s = replicate n c ++ trimLeftByte s c.
Proof.
  induction s as [|b s [n IH]]; [exists 0%nat; reflexivity|].
  cbn [trimLeftByte]. destruct (byte_eqb b c) eqn:Hb.
  - apply byte_eqb_eq in Hb as ->. exists (S n). simpl. f_equal. exact IH.
  - exists 0%nat. reflexivity.
Qed.

Lemma trimLeftByte_head (s : bytes) (c : byte) :
  head (trimLeftByte s c) <> Some c.
Proof.
  induction s as [|b s IH]; [discriminate|].
  cbn [trimLeftByte]. destruct (byte_eqb b c) eqn:Hb; [exact IH|].
  simpl. intros [= ->].
  assert (Hcc : byte_eqb c c = true) by (apply byte_eqb_eq; reflexivity).
  congruence.
Qed.

Lemma rev_replicate {A} (n : nat) (x : A) : rev (replicate n x) = replicate n x.
Proof.
  induction n as [|n IH]; [reflexivity|].
  simpl. rewrite IH. symmetry. apply replicate_cons_app.
Qed.

Lemma last_rev {A} (l : list A) : last (rev l) = head l.
Proof. destruct l as [|a l]; [reflexivity|]. simpl. apply last_snoc. Qed.

Lemma trimRightByte_split (s : bytes) (c : byte) :
  exists m, s = trimRightByte s c ++ replicate m c.
Proof.
  destruct (trimLeftByte_split (rev s) c) as [m Hm]. exists m.
  unfold trimRightByte. rewrite <- (rev_replicate m c), <- rev_app_distr, <- Hm.
  symmetry. apply rev_involutive.
Qed.

Lemma trimRightByte_last (s : bytes) (c : byte) :
  last (trimRightByte s c) <> Some c.
Proof. unfold trimRightByte. rewrite last_rev. apply trimLeftByte_head. Qed.

(** [Trim1 s c] is [s] without the run of [c] at its start and the run of
    [c] at its end, and has no [c] left at either end. *)
Lemma Trim1_spec (s : bytes) (c : byte) :
  (exists n m, s = replicate n c ++ Trim1 s c ++ replicate m c)
  /\ head (Trim1 s c) <> Some c
  /\ last (Trim1 s c) <> Some c.
Proof.
  unfold Trim1.
  destruct (trimRightByte_split s c) as [m Hm].
  destruct (trimLeftByte_split (trimRightByte s c) c) as [n Hn].
  split; [|split].
  - exists n, m. rewrite app_assoc, <- Hn. exact Hm.
  - apply trimLeftByte_head.
  - pose proof (trimRightByte_last s c) as Hlast.
    rewrite Hn, last_app in Hlast.
    destruct (last (trimLeftByte (trimRightByte s c) c)) as [y|];
      [exact Hlast | discriminate].
Qed.

Lemma prefix_same_length {A} (l1 l2 : list A) :
  l1 `prefix_of` l2 -> length l1 = length l2 -> l1 = l2.
Proof.
  intros [k ->] Hlen. rewrite length_app in Hlen.
  destruct k; [symmetry; apply app_nil_r | simpl in Hlen; lia].
Qed.

(** X1. A call of [readTPM2VendorAttributes] sends an initial part of the
    six queries for the properties 0x106, 0x107, 0x108, 0x109, 0x105 and
    0x10b and nothing else. It sends all six when it succeeds; it returns
    the zero [tpm20Info] with every error; and it panics only with an index
    out of range, after an answer that came without error and without any
    capability. *)
Theorem readTPM2VendorAttributes_queries `{Chip} (w : World) :
  exists sent,
    transcript (snd (readTPM2VendorAttributes w)) = transcript w ++ sent
    /\ asRequest <$> sent `prefix_of` Some <$> infoRequests
    /\ (forall info,
          fst (readTPM2VendorAttributes w) = Returned (info, None) ->
          asRequest <$> sent = Some <$> infoRequests)
    /\ (forall info e,
          fst (readTPM2VendorAttributes w) = Returned (info, Some e) ->
          info = tpm20Info_zero)
    /\ (forall why,
          fst (readTPM2VendorAttributes w) = Panicked why ->
          why = IndexOutOfRange 0 0
          /\ exists x, last sent = Some x /\ answeredEmpty x).
Proof.
  destruct (readTPM2VendorAttributes_run w) as (sent & Htr & Hpre & Hend).
  exists sent. split; [exact Htr|]. split; [exact Hpre|].
  destruct (fst (readTPM2VendorAttributes w)) as [[info [e|]]|why].
  - destruct Hend as [Hzero _].
    split; [discriminate|]. split; [|discriminate].
    intros info' e' [= <- _]. exact Hzero.
  - destruct Hend as (v0 & v1 & v2 & v3 & manu & fw & Hrep & _).
    split; [|split; discriminate].
    intros _ _. apply prefix_same_length; [exact Hpre|].
    apply (f_equal (@length (option Z))) in Hrep.
    rewrite !length_fmap in *. exact Hrep.
  - split; [discriminate|]. split; [discriminate|].
    intros why' [= <-]. exact Hend.
Qed.

(** X2. When [readTPM2VendorAttributes] succeeds, the vendor string is what
    the four values read first contribute, in the order read, without the
    NULs at its start and at its end: it neither starts nor ends with NUL,
    and nothing else is removed. *)
Theorem readTPM2VendorAttributes_vendor_trimmed `{Chip}
    (w : World) (info : tpm20Info) :
  fst (readTPM2VendorAttributes w) = Returned (info, None) ->
  exists sent v0 v1 v2 v3 manu fw n m,
    transcript (snd (readTPM2VendorAttributes w)) = transcript w ++ sent
    /\ reported <$> sent = Some <$> [v0; v1; v2; v3; manu; fw]
    /\ vendorChunk v0 ++ vendorChunk v1 ++ vendorChunk v2 ++ vendorChunk v3
       = replicate n x00 ++ vendor info ++ replicate m x00
    /\ head (vendor info) <> Some x00
    /\ last (vendor info) <> Some x00.
Proof.
  intros Hok.
  destruct (readTPM2VendorAttributes_run w) as (sent & Htr & _ & Hend).
  rewrite Hok in Hend.
  destruct Hend as (v0 & v1 & v2 & v3 & manu & fw & Hrep & ->).
  cbn [vendor].
  destruct (Trim1_spec (vendorChunk v0 ++ vendorChunk v1 ++ vendorChunk v2
                        ++ vendorChunk v3) x00)
    as ((n & m & Hsplit) & Hhead & Hlast).
  exists sent, v0, v1, v2, v3, manu, fw, n, m.
  repeat split; assumption.
Qed.

Lemma readTPM2VendorAttributes_vendor_trimmed_witness :
  exists sent v0 v1 v2 v3 manu fw n m,
    transcript (snd (readTPM2VendorAttributes (Bench.world 8 256 [])))
    = [] ++ sent
    /\ reported <$> sent = Some <$> [v0; v1; v2; v3; manu; fw]
    /\ vendorChunk v0 ++ vendorChunk v1 ++ vendorChunk v2 ++ vendorChunk v3
       = replicate n x00
         ++ [xef; xbf; xbd; xef; xbf; xbd; xe5; x90; x80; x43]
         ++ replicate m x00
    /\ head [xef; xbf; xbd; xef; xbf; xbd; xe5; x90; x80; x43] <> Some x00
    /\ last [xef; xbf; xbd; xef; xbf; xbd; xe5; x90; x80; x43] <> Some x00.
Proof.
  exact (readTPM2VendorAttributes_vendor_trimmed (Bench.world 8 256 []) _
           eq_refl).
Defined.

(** X3. When [readTPM2VendorAttributes] succeeds, the manufacturer is the
    value of the fifth answer, and the firmware version is the sixth split
    into its two 16-bit halves: both parts lie below 65536, and the value,
    being a [uint32], is [fwMajor * 65536 + fwMinor]. *)
Theorem readTPM2VendorAttributes_firmware_halves `{Chip}
    (w : World) (info : tpm20Info) :
  fst (readTPM2VendorAttributes w) = Returned (info, None) ->
  exists sent manu fw,
    transcript (snd (readTPM2VendorAttributes w)) = transcript w ++ sent
    /\ reported <$> drop 4 sent = [Some manu; Some fw]
    /\ manufacturer info = manu
    /\ 0 <= fwMajor info < 65536
    /\ 0 <= fwMinor info < 65536
    /\ (0 <= fw < 2 ^ 32 -> fw = fwMajor info * 65536 + fwMinor info).
Proof.
  intros Hok.
  destruct (readTPM2VendorAttributes_run w) as (sent & Htr & _ & Hend).
  rewrite Hok in Hend.
  destruct Hend as (v0 & v1 & v2 & v3 & manu & fw & Hrep & ->).
  exists sent, manu, fw. cbn [manufacturer fwMajor fwMinor].
  split; [exact Htr|]. split.
  { rewrite fmap_drop, Hrep. reflexivity. }
  split; [reflexivity|].
  assert (Hminor : Z.land fw 0x0000ffff = fw mod 2 ^ 16)
    by (change 0x0000ffff with (Z.ones 16); apply Z.land_ones; lia).
  assert (Hmajor : Z.shiftr (Z.land fw 0xffff0000) 16 = (fw / 2 ^ 16) mod 2 ^ 16).
  { rewrite Z.shiftr_land. change (Z.shiftr 0xffff0000 16) with (Z.ones 16).
    rewrite Z.land_ones, Z.shiftr_div_pow2 by lia. reflexivity. }
  rewrite Hminor, Hmajor.
  pose proof (Z.mod_pos_bound fw (2 ^ 16) ltac:(lia)).
  pose proof (Z.mod_pos_bound (fw / 2 ^ 16) (2 ^ 16) ltac:(lia)).
  change (2 ^ 16) with 65536 in *.
  split; [lia|]. split; [lia|].
  intros Hfw. change (2 ^ 32) with 4294967296 in Hfw.
  rewrite (Z.mod_small (fw / 65536)).
  - pose proof (Z.div_mod fw 65536 ltac:(lia)). lia.
  - split; [apply Z.div_pos; lia | apply Z.div_lt_upper_bound; lia].
Qed.

Lemma readTPM2VendorAttributes_firmware_halves_witness :
  exists sent manu fw,
    transcript (snd (readTPM2VendorAttributes (Bench.world 8 256 [])))
    = [] ++ sent
    /\ reported <$> drop 4 sent = [Some manu; Some fw]
    /\ 0x494E5443 = manu
    /\ 0 <= 11 < 65536
    /\ 0 <= 8 < 65536
    /\ (0 <= fw < 2 ^ 32 -> fw = 11 * 65536 + 8).
Proof.
  exact (readTPM2VendorAttributes_firmware_halves (Bench.world 8 256 []) _
           eq_refl).
Defined.

(** ** More of [ParseEKCertificate] *)

(** X4. [ParseEKCertificate] never returns a certificate together with an
    error: whenever the error is not nil, the certificate is nil. *)
Theorem ParseEKCertificate_error_without_certificate `{Libraries}
    (ekCert : bytes) (c : option Certificate) (e : Error) :
  ParseEKCertificate ekCert = Returned (c, Some e) -> c = None.
Proof.
  unfold ParseEKCertificate. rewrite nvramUnwrap_cases.
  assert (Hparse : forall payload wasWrapped,
            parseUnwrapped payload wasWrapped = (c, Some e) -> c = None).
  { intros payload wasWrapped. unfold parseUnwrapped.
    destruct (x509_ParseCertificate payload) as [c1 [e1|]]; [|congruence].
    destruct (asn1_UnmarshalWithParams_lax payload) as [Raw [e2|]].
    - destruct (x509_IsFatal e2); [congruence|].
      destruct (x509_ParseCertificate Raw) as [c3 [e3|]]; [|congruence].
      destruct (x509_IsFatal e3); congruence.
    - destruct (x509_ParseCertificate Raw) as [c3 [e3|]]; [|congruence].
      destruct (x509_IsFatal e3); congruence. }
  destruct (hasPrefix ekCert); cbv zeta.
  - destruct (len ekCert <? uint16 (declaredLength ekCert + 5));
      [simpl; congruence|].
    destruct (5 <=? uint16 (5 + declaredLength ekCert)); [|discriminate].
    simpl. intros [= Hp]. exact (Hparse _ _ Hp).
  - simpl. intros [= Hp]. exact (Hparse _ _ Hp).
Qed.

Lemma ParseEKCertificate_error_without_certificate_witness :
  ParseEKCertificate (H := Bench.benchLibraries) [x10; x01; x00; x00; x10; x00]
  = Returned (None, Some (ErrNvramHeader 6 16))
  /\ (None : option bytes) = None.
Proof.
  split; [reflexivity|].
  exact (ParseEKCertificate_error_without_certificate
           (H := Bench.benchLibraries)
           [x10; x01; x00; x00; x10; x00] None (ErrNvramHeader 6 16) eq_refl).
Defined.

(** X5. What [ParseEKCertificate] does with the prefix when the declared
    length is at most 65530. Without the prefix the parsers get the input as
    it is. With it, an input shorter than the prefix and the declared length
    is rejected with the sizes in the error and no parser is consulted;
    otherwise the parsers get exactly the declared number of bytes after the
    prefix. *)
Theorem ParseEKCertificate_prefix_cases `{Libraries} (ekCert : bytes) :
  (hasPrefix ekCert = false ->
   ParseEKCertificate ekCert = Returned (parseUnwrapped ekCert false))
  /\ (hasPrefix ekCert = true -> declaredLength ekCert <= 65530 ->
      len ekCert < declaredLength ekCert + 5 ->
      ParseEKCertificate ekCert
      = Returned (None, Some (ErrNvramHeader (len ekCert)
                                             (declaredLength ekCert))))
  /\ (hasPrefix ekCert = true -> declaredLength ekCert <= 65530 ->
      declaredLength ekCert + 5 <= len ekCert ->
      ParseEKCertificate ekCert
      = Returned (parseUnwrapped
                    (take (Z.to_nat (declaredLength ekCert)) (drop 5 ekCert))
                    true)).
Proof.
  pose proof (declaredLength_range ekCert) as Hr.
  assert (Hu : declaredLength ekCert <= 65530 ->
               uint16 (declaredLength ekCert + 5) = declaredLength ekCert + 5)
    by (intros Hd; unfold uint16; apply Z.mod_small; lia).
  assert (Hu' : declaredLength ekCert <= 65530 ->
                uint16 (5 + declaredLength ekCert) = 5 + declaredLength ekCert)
    by (intros Hd; unfold uint16; apply Z.mod_small; lia).
  unfold ParseEKCertificate. rewrite nvramUnwrap_cases.
  split; [|split].
  - intros ->. reflexivity.
  - intros -> Hd Hshort. cbv zeta. rewrite Hu by exact Hd.
    destruct (Z.ltb_spec (len ekCert) (declaredLength ekCert + 5)); [|lia].
    reflexivity.
  - intros -> Hd Hfits. cbv zeta. rewrite Hu, Hu' by exact Hd.
    destruct (Z.ltb_spec (len ekCert) (declaredLength ekCert + 5)); [lia|].
    destruct (Z.leb_spec 5 (5 + declaredLength ekCert)); [|lia].
    reflexivity.
Qed.

Lemma ParseEKCertificate_prefix_cases_witness :
  ParseEKCertificate (H := Bench.benchLibraries) [x30; x01; x07]
  = Returned (Some [x07], None)
  /\ ParseEKCertificate (H := Bench.benchLibraries)
       [x10; x01; x00; x00; x10; x00]
     = Returned (None, Some (ErrNvramHeader 6 16))
  /\ ParseEKCertificate (H := Bench.benchLibraries)
       [x10; x01; x00; x00; x03; x30; x01; x07; x99; x99]
     = Returned (Some [x07], None).
Proof.
  split; [|split].
  - exact (proj1 (ParseEKCertificate_prefix_cases (H := Bench.benchLibraries)
                    [x30; x01; x07]) eq_refl).
  - apply (proj1 (proj2 (ParseEKCertificate_prefix_cases
                           (H := Bench.benchLibraries)
                           [x10; x01; x00; x00; x10; x00])));
      [reflexivity | vm_compute; discriminate | reflexivity].
  - apply (proj2 (proj2 (ParseEKCertificate_prefix_cases
                           (H := Bench.benchLibraries)
                           [x10; x01; x00; x00; x03; x30; x01; x07; x99; x99])));
      [reflexivity | vm_compute; discriminate | vm_compute; discriminate].
Defined.

(** X6. [ParseEKCertificate] panics exactly on the inputs that have the
    prefix and declare a length of 65531 or more; the panic is that of the
    slice expression [ekCert[5 : 5+certLen]], whose upper bound has wrapped
    around to the declared length minus 65531. On every other input the call
    returns. *)
Theorem ParseEKCertificate_panics_exactly_on_overflow `{Libraries}
    (ekCert : bytes) :
  (hasPrefix ekCert = true /\ 65531 <= declaredLength ekCert
   -> ParseEKCertificate ekCert
      = Panicked (SliceBoundsOutOfRange 5 (declaredLength ekCert - 65531)
                                        (len ekCert)))
  /\ (hasPrefix ekCert = false \/ declaredLength ekCert <= 65530
      -> exists r, ParseEKCertificate ekCert = Returned r).
Proof.
  pose proof (declaredLength_range ekCert) as Hr. split.
  - intros [Hp Hbig]. unfold ParseEKCertificate.
    rewrite nvramUnwrap_cases, Hp. cbv zeta.
    assert (Hlen : 5 < len ekCert).
    { unfold hasPrefix in Hp. apply andb_true_iff in Hp as [Hp _].
      apply Z.ltb_lt in Hp. exact Hp. }
    assert (Hu : uint16 (declaredLength ekCert + 5)
                 = declaredLength ekCert - 65531).
    { unfold uint16. symmetry. apply (Z.mod_unique _ _ 1); lia. }
    assert (Hu' : uint16 (5 + declaredLength ekCert)
                  = declaredLength ekCert - 65531)
      by (rewrite Z.add_comm; exact Hu).
    rewrite Hu, Hu'.
    destruct (Z.ltb_spec (len ekCert) (declaredLength ekCert - 65531)); [lia|].
    destruct (Z.leb_spec 5 (declaredLength ekCert - 65531)); [lia|].
    reflexivity.
  - intros Hok.
    destruct (ParseEKCertificate ekCert) as [r|why] eqn:Hrun; [eauto|].
    exfalso.
    assert (Hpanic : panics (ParseEKCertificate ekCert))
      by (rewrite Hrun; exact I).
    apply ParseEKCertificate_panics_iff in Hpanic as [Hp Hbig].
    destruct Hok as [Hno | Hsmall]; [congruence | lia].
Qed.

Lemma ParseEKCertificate_panics_exactly_on_overflow_witness :
  ParseEKCertificate (H := Bench.benchLibraries)
    [x10; x01; x00; xff; xfb; x00; x00]
  = Panicked (SliceBoundsOutOfRange 5 0 7)
  /\ exists r,
       ParseEKCertificate (H := Bench.benchLibraries)
         [x10; x01; x00; xff; xfa; x00; x00] = Returned r.
Proof.
  split.
  - apply (proj1 (ParseEKCertificate_panics_exactly_on_overflow
                    (H := Bench.benchLibraries)
                    [x10; x01; x00; xff; xfb; x00; x00])).
    split; [reflexivity | vm_compute; discriminate].
  - apply (proj2 (ParseEKCertificate_panics_exactly_on_overflow
                    (H := Bench.benchLibraries)
                    [x10; x01; x00; xff; xfa; x00; x00])).
    right. vm_compute. discriminate.
Defined.

(** X7. What follows a wrapped certificate in the input does not matter:
    for a certificate of 1 to 65530 bytes, whatever its content, the wrapped
    input gives the same result with any trailing bytes, namely that of the
    parsers on the certificate. *)
Theorem ParseEKCertificate_ignores_trailing_bytes `{Libraries}
    (c trailing trailing' : bytes) :
  1 <= len c <= 65530 ->
  ParseEKCertificate (nvramWrap c trailing)
  = ParseEKCertificate (nvramWrap c trailing')
  /\ ParseEKCertificate (nvramWrap c trailing)
     = Returned (parseUnwrapped c true).
Proof.
  intros Hc. unfold ParseEKCertificate.
  rewrite !nvramUnwrap_nvramWrap by exact Hc. split; reflexivity.
Qed.

Lemma ParseEKCertificate_ignores_trailing_bytes_witness :
  ParseEKCertificate (H := Bench.benchLibraries)
    (nvramWrap [x30; x01; x07] [])
  = ParseEKCertificate (H := Bench.benchLibraries)
      (nvramWrap [x30; x01; x07] [xff; xff; xff])
  /\ ParseEKCertificate (H := Bench.benchLibraries)
       (nvramWrap [x30; x01; x07] [])
     = Returned (Some [x07], None).
Proof.
  assert (Hlen : 1 <= len [x30; x01; x07] <= 65530)
    by (vm_compute; split; discriminate).
  exact (ParseEKCertificate_ignores_trailing_bytes (H := Bench.benchLibraries)
           [x30; x01; x07] [] [xff; xff; xff] Hlen).
Defined.

(** ** [readEKCertFromNVRAM20] *)

(** X8. [readEKCertFromNVRAM20] sends one [NVReadEx] for the index
    0x1c00002 under the owner handle, with an empty password and block size
    0. When the read fails, the call returns its error, wrapped, and no
    certificate. When the index holds a wrapped certificate of 1 to 65530
    bytes, followed by anything, the result is that of the parsers on the
    certificate. *)
Theorem readEKCertFromNVRAM20_reads_and_parses `{Chip} (w : World) :
  let answer := tpm2_NVReadEx (chip w) 0x1c00002 0x40000001 [] 0 in
  let run := readEKCertFromNVRAM20 w in
  transcript (snd run)
  = transcript w ++ [XNVReadEx 0x1c00002 0x40000001 [] 0 (snd answer)]
  /\ chip (snd run) = fst answer
  /\ (forall data e,
        snd answer = (data, Some e) ->
        fst run = Returned (None, Some (ErrReadingEKCert e)))
  /\ (forall data, snd answer = (data, None) ->
                   fst run = ParseEKCertificate data)
  /\ (forall c trailing,
        1 <= len c <= 65530 ->
        snd answer = (nvramWrap c trailing, None) ->
        fst run = Returned (parseUnwrapped c true)).
Proof.
  cbv zeta. unfold readEKCertFromNVRAM20, bind, cmdNVReadEx, exchange, lift, ret.
  change nvramCertIndex with 0x1c00002. change HandleOwner with 0x40000001.
  destruct (tpm2_NVReadEx (chip w) 0x1c00002 0x40000001 [] 0)
    as [c' [data [e|]]]; simpl.
  - repeat split; try (intros; discriminate).
    intros data' e' [= _ <-]. reflexivity.
  - repeat split; try (intros; discriminate).
    + intros data' [= <-]. reflexivity.
    + intros c trailing Hc [= ->].
      unfold ParseEKCertificate.
      rewrite nvramUnwrap_nvramWrap by exact Hc. reflexivity.
Qed.

(** ** More of [quote20] *)

(** X9. [quote20] reads [sig.RSA.HashAlg] without looking at the kind of
    the signature: when the [Quote] command succeeds with a signature that
    has no RSA part (or with no signature at all), the call panics with a nil
    dereference, after the command has been sent. *)
Theorem quote20_panics_without_RSA_signature `{Chip}
    (aikHandle alg : Z) (toQuote : bytes) (w : World)
    (c : chip_state) (quote : bytes) (sig : option Signature) :
  tpm2_Quote (chip w) aikHandle [] [] toQuote
             {| Hash := alg; PCRs := allPCRs 24 |} AlgNull
  = (c, (quote, sig, None)) ->
  sig = None \/ (exists s, sig = Some s /\ RSA s = None) ->
  fst (quote20 aikHandle alg toQuote w) = Panicked NilDereference
  /\ transcript (snd (quote20 aikHandle alg toQuote w))
     = transcript w
       ++ [XQuote aikHandle [] [] toQuote
                  {| Hash := alg; PCRs := allPCRs 24 |} AlgNull
                  (quote, sig, None)]
  /\ chip (snd (quote20 aikHandle alg toQuote w)) = c.
Proof.
  intros Hq Hsig. unfold quote20, bind, cmdQuote, exchange, lift, ret.
  rewrite Hq. simpl.
  destruct Hsig as [-> | (s & -> & Hrsa)]; simpl.
  - repeat split.
  - rewrite Hrsa. simpl. repeat split.
Qed.

Lemma quote20_panics_without_RSA_signature_witness :
  let w := Scripted.world
             {| Scripted.capabilities := []; Scripted.nvReads := [];
                Scripted.quotes := [([x01], Some {| Alg := 0x0018;
                                                    RSA := None |}, None)];
                Scripted.pcrReads := [] |} in
  fst (quote20 0x81010002 AlgSHA256 [xaa] w) = Panicked NilDereference
  /\ transcript (snd (quote20 0x81010002 AlgSHA256 [xaa] w))
     = transcript w
       ++ [XQuote 0x81010002 [] [] [xaa]
                  {| Hash := AlgSHA256; PCRs := allPCRs 24 |} AlgNull
                  ([x01], Some {| Alg := 0x0018; RSA := None |}, None)]
  /\ chip (snd (quote20 0x81010002 AlgSHA256 [xaa] w))
     = {| Scripted.capabilities := []; Scripted.nvReads := [];
          Scripted.quotes := []; Scripted.pcrReads := [] |}.
Proof.
  cbv zeta.
  apply (quote20_panics_without_RSA_signature (H0 := Scripted.scriptedChip)).
  - reflexivity.
  - right. eexists. split; reflexivity.
Defined.

(** X10. What [quote20] returns tells what happened. A nil [*Quote] with an
    error means the [Quote] command failed, and the error is the command's,
    unwrapped. A [*Quote] without error means the command succeeded with an
    RSA signature and the packer succeeded: the [*Quote] has version 2.0, the
    attestation bytes of the answer, and as signature the packed signature
    algorithm, hash algorithm and signature bytes. *)
Theorem quote20_outcomes `{Chip}
    (aikHandle alg : Z) (toQuote : bytes) (w : World) :
  let answer := snd (tpm2_Quote (chip w) aikHandle [] [] toQuote
                       {| Hash := alg; PCRs := allPCRs 24 |} AlgNull) in
  (forall e,
     fst (quote20 aikHandle alg toQuote w) = Returned (None, Some e) ->
     exists e', snd answer = Some e' /\ e = ErrLibrary e')
  /\ (forall q,
        fst (quote20 aikHandle alg toQuote w) = Returned (Some q, None) ->
        exists s rsa,
          answer = (q_Quote q, Some s, None)
          /\ RSA s = Some rsa
          /\ tpmutil_Pack (Alg s) (HashAlg rsa) (Signature_ rsa)
             = (q_Signature q, None)
          /\ q_Version q = TPMVersion20).
Proof.
  cbv zeta. unfold quote20, bind, cmdQuote, exchange, lift, ret.
  destruct (tpm2_Quote (chip w) aikHandle [] [] toQuote
              {| Hash := alg; PCRs := allPCRs 24 |} AlgNull)
    as [c [[quote sig] [e0|]]]; simpl.
  - split; [|discriminate]. intros e [= <-]. eexists. split; reflexivity.
  - destruct sig as [s|]; simpl; [|split; discriminate].
    destruct (RSA s) as [rsa|] eqn:Hrsa; simpl; [|split; discriminate].
    destruct (tpmutil_Pack (Alg s) (HashAlg rsa) (Signature_ rsa))
      as [rawSig [e1|]] eqn:Hpack; simpl.
    + split; discriminate.
    + split; [discriminate|]. intros q [= <-]. exists s, rsa.
      repeat split; assumption.
Qed.

(** ** More of [readAllPCRs20] *)

Section readAllPCRs20_more.
Context `{Chip}.

(** Keeping an answer whose keys are register numbers is a union in which
    the answer wins. *)
Lemma keepPCRs_union (r out : gmap Z bytes) :
  (forall pcr, pcr ∈ dom r -> 0 <= pcr < 2 ^ 32) ->
  keepPCRs r out = r ∪ out.
Proof.
  unfold keepPCRs.
  apply (map_fold_weak_ind
           (fun acc (m : gmap Z bytes) =>
              (forall pcr, pcr ∈ dom m -> 0 <= pcr < 2 ^ 32) ->
              acc = m ∪ out)).
  - intros _. rewrite (left_id_L ∅ (∪)). reflexivity.
  - intros i x m acc Hi IH Hm.
    rewrite uint32_small by (apply Hm; rewrite dom_insert_L; set_solver).
    rewrite IH.
    + apply insert_union_l.
    + intros pcr Hp. apply Hm. rewrite dom_insert_L. set_solver.
Qed.

(** The loop on any chip. *)
Lemma readRounds_any (alg : Z) (rounds : nat) :
  forall (out : gmap Z bytes) (w : World),
  exists sent,
    transcript (snd (readRounds rounds 24 alg out w)) = transcript w ++ sent
    /\ (length sent <= rounds)%nat
    /\ Forall (isBankRequest alg) sent
    /\ match fst (readRounds rounds 24 alg out w) with
       | Returned (inl out') =>
         Forall answered sent
         /\ (Z.of_nat (size out') = 24 \/ length sent = rounds)
       | Returned (inr e) =>
         exists pre sel r e',
           sent = pre ++ [XReadPCRs sel (r, Some e')]
           /\ e = ErrReadPCRs sel e'
           /\ Forall answered pre
       | Panicked _ => False
       end.
Proof.
  induction rounds as [|rounds IH]; intros out w.
  - exists []. simpl. rewrite app_nil_r.
    split; [reflexivity|]. split; [lia|]. split; [constructor|].
    split; [constructor | right; reflexivity].
  - cbn [readRounds]. unfold bind, cmdReadPCRs, exchange.
    set (sel := {| Hash := alg; PCRs := missingPCRs 24 out |}).
    assert (Hreq : forall resp, isBankRequest alg (XReadPCRs sel resp)).
    { intros resp. exists sel, resp. split; [reflexivity|].
      split; [reflexivity|]. unfold sel. cbn [PCRs].
      rewrite missingPCRs_filter. apply sublist_filter. }
    destruct (tpm2_ReadPCRs (chip w) sel) as [c [r [e|]]].
    + exists [XReadPCRs sel (r, Some e)]. simpl.
      split; [reflexivity|]. split; [lia|].
      split; [constructor; [apply Hreq | constructor]|].
      exists [], sel, r, e. repeat split. constructor.
    + cbv zeta.
      destruct (Z.eqb_spec (Z.of_nat (size (keepPCRs r out))) 24) as [Hfull|_].
      * exists [XReadPCRs sel (r, None)]. simpl.
        split; [reflexivity|]. split; [lia|].
        split; [constructor; [apply Hreq | constructor]|].
        split; [repeat constructor | left; exact Hfull].
      * set (w' := {| pkg := pkg w; chip := c;
                      transcript := transcript w ++ [XReadPCRs sel (r, None)] |}).
        destruct (IH (keepPCRs r out) w') as (sent & Htr & Hlen & Hall & Hend).
        exists (XReadPCRs sel (r, None) :: sent).
        split; [rewrite Htr; simpl; rewrite <- app_assoc; reflexivity|].
        split; [simpl; lia|].
        split; [constructor; [apply Hreq | exact Hall]|].
        destruct (fst (readRounds rounds 24 alg (keepPCRs r out) w'))
          as [[out'|e]|why]; [| |exact Hend].
        -- destruct Hend as [Hans Hstop].
           split; [constructor; [exact I | exact Hans]|].
           destruct Hstop as [Hfull | Hused]; [left; exact Hfull|].
           right. simpl. lia.
        -- destruct Hend as (pre & sel' & r' & e' & -> & -> & Hpre).
           exists (XReadPCRs sel (r, None) :: pre), sel', r', e'.
           repeat split. constructor; [exact I | exact Hpre].
Qed.

(** The loop on a chip with partial reads: what [out] holds is what the
    answers supplied. *)
Lemma readRounds_values (alg : Z) :
  partialReads ->
  forall (rounds : nat) (out : gmap Z bytes) (w : World)
         (earlier : list Exchange),
    dom out = obtained earlier ->
    (forall pcr d, out !! pcr = Some d <-> suppliedAs earlier pcr d) ->
    exists sent,
      transcript (snd (readRounds rounds 24 alg out w)) = transcript w ++ sent
      /\ match fst (readRounds rounds 24 alg out w) with
         | Returned (inl out') =>
           forall pcr d,
             out' !! pcr = Some d <-> suppliedAs (earlier ++ sent) pcr d
         | _ => True
         end.
Proof.
  intros Hpart. induction rounds as [|rounds IH];
    intros out w earlier Hdom Hinv.
  - exists []. simpl. rewrite !app_nil_r. split; [reflexivity | exact Hinv].
  - cbn [readRounds]. unfold bind, cmdReadPCRs, exchange.
    rewrite missingPCRs_filter, Hdom. fold (stillMissing earlier).
    set (sel := {| Hash := alg; PCRs := stillMissing earlier |}).
    destruct (tpm2_ReadPCRs (chip w) sel) as [c [r [e|]]] eqn:Hstep.
    + exists [XReadPCRs sel (r, Some e)]. simpl. split; reflexivity.
    + assert (Hnew : forall pcr, pcr ∈ dom r ->
                0 <= pcr < 24 /\ pcr ∉ obtained earlier).
      { intros pcr Hp. pose proof (Hpart _ _ _ _ Hstep pcr Hp) as Hsel.
        cbn [PCRs sel] in Hsel. unfold stillMissing in Hsel.
        apply list_elem_of_filter in Hsel as [Hnot Hrange].
        apply elem_of_seqZ in Hrange. split; [lia | exact Hnot]. }
      assert (Hkeep : keepPCRs r out = r ∪ out).
      { apply keepPCRs_union. intros pcr Hp.
        destruct (Hnew pcr Hp) as [Hr _]. lia. }
      assert (Hdom' : dom (keepPCRs r out)
                      = obtained (earlier ++ [XReadPCRs sel (r, None)])).
      { rewrite obtained_snoc, Hkeep, dom_union_L, Hdom. set_solver. }
      assert (Hinv' : forall pcr d,
                keepPCRs r out !! pcr = Some d
                <-> suppliedAs (earlier ++ [XReadPCRs sel (r, None)]) pcr d).
      { intros pcr d. rewrite Hkeep, lookup_union_Some_raw. split.
        - intros [Hr | [_ Ho]].
          + exists sel, r. split; [|exact Hr].
            apply elem_of_app. right. left.
          + apply Hinv in Ho as (sel0 & r0 & Hin & Hr0).
            exists sel0, r0. split; [|exact Hr0].
            apply elem_of_app. left. exact Hin.
        - intros (sel0 & r0 & Hin & Hr0).
          apply elem_of_app in Hin as [Hin | Hin].
          + right. assert (Ho : out !! pcr = Some d)
              by (apply Hinv; exists sel0, r0; split; assumption).
            split; [|exact Ho].
            destruct (r !! pcr) as [d'|] eqn:Hr; [|reflexivity].
            exfalso.
            destruct (Hnew pcr) as [_ Hnot];
              [apply elem_of_dom; eauto|].
            apply Hnot. rewrite <- Hdom. apply elem_of_dom. eauto.
          + apply list_elem_of_singleton in Hin. injection Hin as _ <-.
            left. exact Hr0. }
      cbv zeta.
      destruct (Z.of_nat (size (keepPCRs r out)) =? 24).
      * exists [XReadPCRs sel (r, None)]. simpl.
        split; [reflexivity | exact Hinv'].
      * set (w' := {| pkg := pkg w; chip := c;
                      transcript := transcript w ++ [XReadPCRs sel (r, None)] |}).
        destruct (IH (keepPCRs r out) w'
                     (earlier ++ [XReadPCRs sel (r, None)]) Hdom' Hinv')
          as (sent & Htr & Hend).
        exists (XReadPCRs sel (r, None) :: sent).
        split; [rewrite Htr; simpl; rewrite <- app_assoc; reflexivity|].
        destruct (fst (readRounds rounds 24 alg (keepPCRs r out) w'))
          as [[out'|e]|why]; [|exact I|exact I].
        intros pcr d. rewrite (Hend pcr d), <- app_assoc. reflexivity.
Qed.

End readAllPCRs20_more.

(** X11. On any chip, whatever it answers, [readAllPCRs20] does not panic
    and sends at most 24 commands, each a [ReadPCRs] under the algorithm
    given for some of the registers 0 to 23 in increasing order. It ends in
    one of three ways: with a map of exactly 24 entries and no error, all
    commands having been answered; with the error of the one command that
    failed, which is the last one sent; or, after 24 answered commands, with
    the error that tells how many entries, other than 24, it holds. In both
    error cases the map is nil. *)
Theorem readAllPCRs20_any_chip `{Chip} (alg : Z) (w : World) :
  exists sent,
    transcript (snd (readAllPCRs20 alg w)) = transcript w ++ sent
    /\ (length sent <= 24)%nat
    /\ Forall (isBankRequest alg) sent
    /\ ((exists out,
           fst (readAllPCRs20 alg w) = Returned (Some out, None)
           /\ size out = 24%nat /\ Forall answered sent)
        \/ (exists pre sel r e,
              fst (readAllPCRs20 alg w)
              = Returned (None, Some (ErrReadPCRs sel e))
              /\ sent = pre ++ [XReadPCRs sel (r, Some e)]
              /\ Forall answered pre)
        \/ (exists n,
              fst (readAllPCRs20 alg w)
              = Returned (None, Some (ErrFailedToReadAllPCRs n))
              /\ n <> 24 /\ length sent = 24%nat /\ Forall answered sent)).
Proof.
  destruct (readRounds_any alg 24 ∅ w) as (sent & Htr & Hlen & Hall & Hend).
  exists sent. unfold readAllPCRs20, bind. cbv zeta.
  change (Z.to_nat 24) with 24%nat.
  destruct (readRounds 24 24 alg ∅ w) as [[[out|e]|why] w'];
    simpl in Htr, Hend; [| |contradiction].
  - destruct Hend as [Hans Hstop].
    destruct (Z.eqb_spec (Z.of_nat (size out)) 24) as [Hfull|Hnot]; simpl.
    + split; [exact Htr|]. split; [exact Hlen|]. split; [exact Hall|].
      left. exists out. repeat split; [lia | exact Hans].
    + split; [exact Htr|]. split; [exact Hlen|]. split; [exact Hall|].
      right. right. exists (Z.of_nat (size out)).
      destruct Hstop as [Hfull|Hused]; [contradiction|].
      repeat split; assumption.
  - destruct Hend as (pre & sel & r & e' & -> & -> & Hpre). simpl.
    split; [exact Htr|]. split; [exact Hlen|]. split; [exact Hall|].
    right. left. exists pre, sel, r, e'. repeat split. exact Hpre.
Qed.

(** X12. On a chip with partial reads, the map [readAllPCRs20] returns holds
    for a register exactly the digests that the answers supplied for it: no
    digest is made up, changed or lost. *)
Theorem readAllPCRs20_digests_from_answers `{Chip}
    (alg : Z) (w : World) (out : gmap Z bytes) :
  partialReads ->
  fst (readAllPCRs20 alg w) = Returned (Some out, None) ->
  exists sent,
    transcript (snd (readAllPCRs20 alg w)) = transcript w ++ sent
    /\ forall pcr d, out !! pcr = Some d <-> suppliedAs sent pcr d.
Proof.
  intros Hpart.
  destruct (readRounds_values alg Hpart 24 ∅ w []) as (sent & Htr & Hend).
  { rewrite dom_empty_L. reflexivity. }
  { intros pcr d. rewrite lookup_empty. split; [discriminate|].
    intros (sel & r & Hin & _). apply elem_of_nil in Hin. contradiction. }
  unfold readAllPCRs20, bind. cbv zeta. change (Z.to_nat 24) with 24%nat.
  destruct (readRounds 24 24 alg ∅ w) as [[[out'|e]|why] w'];
    simpl in Htr, Hend; simpl; try discriminate.
  destruct (Z.of_nat (size out') =? 24); simpl; [|discriminate].
  intros [= <-]. exists sent. split; [exact Htr | exact Hend].
Qed.

Lemma readAllPCRs20_digests_from_answers_witness :
  partialReads (H0 := Bench.benchChip)
  /\ exists out,
       fst (readAllPCRs20 AlgSHA256 (Bench.world 8 256 []))
       = Returned (Some out, None)
       /\ exists sent,
            transcript (snd (readAllPCRs20 AlgSHA256 (Bench.world 8 256 [])))
            = [] ++ sent
            /\ forall pcr d, out !! pcr = Some d <-> suppliedAs sent pcr d.
Proof.
  split; [exact bench_partialReads|].
  eexists. split; [reflexivity|].
  apply (readAllPCRs20_digests_from_answers AlgSHA256 (Bench.world 8 256 []));
    [exact bench_partialReads | reflexivity].
Defined.

(** X13. The loop counts entries; it does not compare the registers of an
    answer with the registers it asked for. When the first answer holds 24
    entries, whatever register numbers (below 2^32) they carry,
    [readAllPCRs20] returns that answer after this one command. *)
Theorem readAllPCRs20_counts_entries `{Chip}
    (alg : Z) (w : World) (c : chip_state) (r : gmap Z bytes) :
  tpm2_ReadPCRs (chip w) {| Hash := alg; PCRs := seqZ 0 24 |}
  = (c, (r, None)) ->
  size r = 24%nat ->
  (forall pcr, pcr ∈ dom r -> 0 <= pcr < 2 ^ 32) ->
  fst (readAllPCRs20 alg w) = Returned (Some r, None)
  /\ transcript (snd (readAllPCRs20 alg w))
     = transcript w
       ++ [XReadPCRs {| Hash := alg; PCRs := seqZ 0 24 |} (r, None)].
Proof.
  intros Hstep Hsize Hkeys.
  unfold readAllPCRs20, bind. cbv zeta. change (Z.to_nat 24) with 24%nat.
  cbn [readRounds]. unfold bind, cmdReadPCRs, exchange.
  assert (Hall : missingPCRs 24 ∅ = seqZ 0 24) by reflexivity.
  rewrite Hall, Hstep. cbv zeta.
  rewrite (keepPCRs_union r ∅ Hkeys), (right_id_L ∅ (∪)), Hsize.
  simpl. rewrite Hsize. split; reflexivity.
Qed.

Lemma readAllPCRs20_counts_entries_witness :
  let r : gmap Z bytes :=
    list_to_map (map (fun pcr => (pcr, [xaa])) (seqZ 100 24)) in
  let w := Scripted.world
             {| Scripted.capabilities := []; Scripted.nvReads := [];
                Scripted.quotes := [];
                Scripted.pcrReads := [(r, None)] |} in
  r !! 0 = None
  /\ fst (readAllPCRs20 AlgSHA256 w) = Returned (Some r, None)
  /\ transcript (snd (readAllPCRs20 AlgSHA256 w))
     = transcript w
       ++ [XReadPCRs {| Hash := AlgSHA256; PCRs := seqZ 0 24 |} (r, None)].
Proof.
  cbv zeta. split; [reflexivity|].
  apply (readAllPCRs20_counts_entries (H0 := Scripted.scriptedChip)) with
    (c := {| Scripted.capabilities := []; Scripted.nvReads := [];
             Scripted.quotes := []; Scripted.pcrReads := [] |}).
  - reflexivity.
  - reflexivity.
  - intros pcr Hp. rewrite dom_list_to_map_L, <- list_fmap_compose in Hp.
    apply elem_of_list_to_set, list_elem_of_fmap in Hp as (x & -> & Hx).
    apply elem_of_seqZ in Hx. simpl. lia.
Defined.

(** ** More of [intelEKURL] *)

Lemma by_triples (P : bytes -> Prop) :
  P [] -> (forall a, P [a]) -> (forall a b, P [a; b]) ->
  (forall a b c rest, P rest -> P (a :: b :: c :: rest)) ->
  forall l, P l.
Proof.
  intros H0 H1 H2 H3 l.
  assert (Hgen : forall n l, (length l <= n)%nat -> P l).
  { induction n as [|n IH]; intros [|a [|b [|c rest]]] Hlen;
      simpl in Hlen; try lia; auto.
    apply H3. apply IH. lia. }
  apply (Hgen (length l)). lia.
Qed.

Lemma sextet_in_alphabet (v shift : Z) : sextet v shift ∈ encodeURL.
Proof.
  unfold sextet.
  assert (Hidx : 0 <= Z.land (Z.shiftr v shift) 0x3F < 64).
  { change 0x3F with (Z.ones 6). rewrite Z.land_ones by lia.
    apply Z.mod_pos_bound. lia. }
  destruct (encodeURL !! Z.to_nat (Z.land (Z.shiftr v shift) 0x3F))
    as [ch|] eqn:Hch.
  - simpl. eapply list_elem_of_lookup_2. exact Hch.
  - apply lookup_ge_None in Hch.
    change (length encodeURL) with 64%nat in Hch. lia.
Qed.

Lemma EncodeToString_urlSafe (src : bytes) :
  Forall urlSafe (EncodeToString src).
Proof.
  induction src as [|a|a b|a b c rest IH] using by_triples;
    cbn [EncodeToString]; [constructor | | |apply Forall_app; split; [|exact IH]];
    repeat (apply List.Forall_cons;
            [first [left; apply sextet_in_alphabet | right; reflexivity]|]);
    apply List.Forall_nil.
Qed.

Lemma EncodeToString_length (src : bytes) :
  length (EncodeToString src) = (4 * ((length src + 2) / 3))%nat.
Proof.
  induction src as [|a|a b|a b c rest IH] using by_triples;
    try reflexivity.
  cbn [EncodeToString]. rewrite length_app, IH. cbn [length].
  replace (S (S (S (length rest))) + 2)%nat
    with (length rest + 2 + 1 * 3)%nat by lia.
  rewrite Nat.div_add by lia. lia.
Qed.

(** X15. The URL [intelEKURL] returns is the service URL followed by
    characters that are safe in a URL path: letters, digits, [-], [_] and the
    padding [=]; neither [/] nor [+] occurs among them. With a digest of 32
    bytes the URL has 81 bytes and ends with one [=]. *)
Theorem intelEKURL_is_url_safe `{Libraries} (ekPub : PublicKey) :
  exists code,
    intelEKURL ekPub = intelEKCertServiceURL ++ code
    /\ Forall urlSafe code
    /\ Forall (fun ch => ch <> "/"%byte /\ ch <> "+"%byte) code
    /\ (len (sha256_Sum256 (big_Int_Bytes (N ekPub) ++ [x01; x00; x01])) = 32 ->
        len (intelEKURL ekPub) = 81
        /\ last (intelEKURL ekPub) = Some "="%byte).
Proof.
  unfold intelEKURL, hash_Sum, hash_Write, sha256_New. cbn [written app].
  set (sum := sha256_Sum256 (big_Int_Bytes (N ekPub) ++ [x01; x00; x01])).
  exists (EncodeToString sum). split; [reflexivity|].
  pose proof (EncodeToString_urlSafe sum) as Hsafe.
  split; [exact Hsafe|]. split.
  - eapply Forall_impl; [exact Hsafe|]. intros ch [Hin | ->].
    + apply list_elem_of_In in Hin.
      split; intros ->; vm_compute in Hin; intuition discriminate.
    + split; discriminate.
  - intros Hlen. split.
    + rewrite len_app. unfold len at 2. rewrite EncodeToString_length.
      unfold len in Hlen. replace (length sum) with 32%nat by lia.
      reflexivity.
    + assert (Hsum : length sum = 32%nat) by (unfold len in Hlen; lia).
      do 32 (destruct sum as [|? sum]; [discriminate|]).
      destruct sum; [|discriminate].
      rewrite last_app. reflexivity.
Qed.

Lemma intelEKURL_is_url_safe_witness :
  len (intelEKURL (H := Bench.benchLibraries) {| N := 0x010203; E := 65537 |})
  = 81
  /\ last (intelEKURL (H := Bench.benchLibraries)
             {| N := 0x010203; E := 65537 |}) = Some "="%byte.
Proof.
  destruct (intelEKURL_is_url_safe (H := Bench.benchLibraries)
              {| N := 0x010203; E := 65537 |}) as (code & _ & _ & _ & Hlen).
  apply Hlen. reflexivity.
Defined.

(** The encoder can be undone: the place of a character of the output in
    the alphabet is the six bits it was made from. *)
Lemma positionOf_sextet (v shift : Z) :
  positionOf (sextet v shift) encodeURL = Z.land (Z.shiftr v shift) 0x3F.
Proof.
  unfold sextet.
  assert (Hidx : 0 <= Z.land (Z.shiftr v shift) 0x3F < 64).
  { change 0x3F with (Z.ones 6). rewrite Z.land_ones by lia.
    apply Z.mod_pos_bound. lia. }
  set (i := Z.land (Z.shiftr v shift) 0x3F) in *.
  assert (Hn : exists n, (n < 64)%nat /\ i = Z.of_nat n)
    by (exists (Z.to_nat i); lia).
  destruct Hn as (n & Hn & ->). rewrite Nat2Z.id. clear Hidx.
  do 64 (destruct n as [|n]; [reflexivity|]). lia.
Qed.

Lemma sextet_not_pad (v shift : Z) : sextet v shift <> padChar.
Proof.
  intros Heq. pose proof (sextet_in_alphabet v shift) as Hin.
  rewrite Heq in Hin. apply list_elem_of_In in Hin.
  vm_compute in Hin. intuition discriminate.
Qed.

Lemma group24_sum (a b c : byte) :
  group24 a b c = byte_to_Z a * 65536 + byte_to_Z b * 256 + byte_to_Z c.
Proof.
  pose proof (lor_shiftl_bytes x00 a b c) as Hfour.
  change (byte_to_Z x00) with 0 in Hfour.
  rewrite Z.shiftl_0_l, Z.lor_0_r in Hfour.
  unfold group24.
  rewrite (Z.lor_comm (Z.shiftl (byte_to_Z a) 16)), Z.lor_comm.
  rewrite Z.lor_assoc. rewrite Hfour. lia.
Qed.

Lemma group24_lor_two (a b : byte) :
  Z.lor (Z.shiftl (byte_to_Z a) 16) (Z.shiftl (byte_to_Z b) 8)
  = group24 a b x00.
Proof.
  unfold group24. change (byte_to_Z x00) with 0. rewrite Z.lor_0_r.
  reflexivity.
Qed.

Lemma group24_lor_one (a : byte) :
  Z.shiftl (byte_to_Z a) 16 = group24 a x00 x00.
Proof.
  unfold group24. change (byte_to_Z x00) with 0.
  rewrite Z.shiftl_0_l, !Z.lor_0_r. reflexivity.
Qed.

(** The four sextets of 24 bits determine them. *)
Lemma sextets_determine (v v' : Z) :
  0 <= v < 2 ^ 24 -> 0 <= v' < 2 ^ 24 ->
  sextet v 18 = sextet v' 18 -> sextet v 12 = sextet v' 12 ->
  sextet v 6 = sextet v' 6 -> sextet v 0 = sextet v' 0 ->
  v = v'.
Proof.
  intros Hv Hv' H18 H12 H6 H0.
  apply (f_equal (fun ch => positionOf ch encodeURL)) in H18, H12, H6, H0.
  rewrite !positionOf_sextet in H18, H12, H6, H0.
  change 0x3F with (Z.ones 6) in *.
  rewrite !Z.land_ones, !Z.shiftr_div_pow2 in H18, H12, H6, H0 by lia.
  change (2 ^ 24) with 16777216 in *. change (2 ^ 18) with 262144 in *.
  change (2 ^ 12) with 4096 in *. change (2 ^ 6) with 64 in *.
  change (2 ^ 0) with 1 in *. rewrite !Z.div_1_r in H0.
  assert (Hsplit : forall x, 0 <= x < 16777216 ->
            x = ((x / 262144) mod 64) * 262144 + ((x / 4096) mod 64) * 4096
                + ((x / 64) mod 64) * 64 + x mod 64).
  { intros x Hx.
    pose proof (Z.div_mod x 64 ltac:(lia)).
    pose proof (Z.mod_pos_bound x 64 ltac:(lia)).
    pose proof (Z.div_mod (x / 64) 64 ltac:(lia)).
    pose proof (Z.mod_pos_bound (x / 64) 64 ltac:(lia)).
    pose proof (Z.div_mod (x / 4096) 64 ltac:(lia)).
    pose proof (Z.mod_pos_bound (x / 4096) 64 ltac:(lia)).
    assert (E1 : x / 4096 = x / 64 / 64)
      by (rewrite Z.div_div by lia; reflexivity).
    assert (E2 : x / 262144 = x / 4096 / 64)
      by (rewrite Z.div_div by lia; reflexivity).
    assert (Hsmall : 0 <= x / 262144 < 64)
      by (split; [apply Z.div_pos; lia | apply Z.div_lt_upper_bound; lia]).
    rewrite (Z.mod_small (x / 262144)) by lia. lia. }
  rewrite (Hsplit v Hv), (Hsplit v' Hv'), H18, H12, H6, H0. reflexivity.
Qed.

Lemma group24_range (a b c : byte) : 0 <= group24 a b c < 2 ^ 24.
Proof.
  rewrite group24_sum.
  pose proof (byte_to_Z_range a). pose proof (byte_to_Z_range b).
  pose proof (byte_to_Z_range c). change (2 ^ 24) with 16777216. lia.
Qed.

Lemma group24_inj (a b c a' b' c' : byte) :
  group24 a b c = group24 a' b' c' -> a = a' /\ b = b' /\ c = c'.
Proof.
  rewrite !group24_sum. intros Heq.
  pose proof (byte_to_Z_range a). pose proof (byte_to_Z_range b).
  pose proof (byte_to_Z_range c). pose proof (byte_to_Z_range a').
  pose proof (byte_to_Z_range b'). pose proof (byte_to_Z_range c').
  assert (Ha : byte_to_Z a = byte_to_Z a') by lia.
  assert (Hb : byte_to_Z b = byte_to_Z b') by lia.
  assert (Hc : byte_to_Z c = byte_to_Z c') by lia.
  rewrite <- (byte_of_to_Z a), <- (byte_of_to_Z b), <- (byte_of_to_Z c).
  rewrite Ha, Hb, Hc, !byte_of_to_Z. repeat split.
Qed.

(** The low sextets of a group that ends early are those of zero bits. *)
Lemma sextet_low_zero (a b : byte) :
  sextet (group24 a b x00) 0 = sextet 0 0
  /\ sextet (group24 a x00 x00) 6 = sextet 0 0.
Proof.
  unfold sextet. rewrite !group24_sum. change (byte_to_Z x00) with 0.
  change 0x3F with (Z.ones 6).
  rewrite !Z.land_ones, !Z.shiftr_div_pow2 by lia.
  change (2 ^ 0) with 1. change (2 ^ 6) with 64. rewrite !Z.div_1_r.
  pose proof (byte_to_Z_range a). pose proof (byte_to_Z_range b).
  assert (E0 : (byte_to_Z a * 65536 + byte_to_Z b * 256 + 0) mod 64 = 0).
  { replace (byte_to_Z a * 65536 + byte_to_Z b * 256 + 0)
      with (0 + (byte_to_Z a * 1024 + byte_to_Z b * 4) * 64) by lia.
    rewrite Z_mod_plus_full. reflexivity. }
  assert (E1 : ((byte_to_Z a * 65536 + 0 * 256 + 0) / 64) mod 64 = 0).
  { replace (byte_to_Z a * 65536 + 0 * 256 + 0)
      with (byte_to_Z a * 1024 * 64) by lia.
    rewrite Z.div_mul by lia.
    replace (byte_to_Z a * 1024) with (0 + byte_to_Z a * 16 * 64) by lia.
    rewrite Z_mod_plus_full. reflexivity. }
  rewrite E0, E1. split; reflexivity.
Qed.

Lemma EncodeToString_one (a : byte) :
  EncodeToString [a]
  = [sextet (group24 a x00 x00) 18; sextet (group24 a x00 x00) 12;
     padChar; padChar].
Proof. cbn [EncodeToString]. rewrite group24_lor_one. reflexivity. Qed.

Lemma EncodeToString_two (a b : byte) :
  EncodeToString [a; b]
  = [sextet (group24 a b x00) 18; sextet (group24 a b x00) 12;
     sextet (group24 a b x00) 6; padChar].
Proof. cbn [EncodeToString]. rewrite group24_lor_two. reflexivity. Qed.

Lemma EncodeToString_three (a b c : byte) (rest : bytes) :
  EncodeToString (a :: b :: c :: rest)
  = [sextet (group24 a b c) 18; sextet (group24 a b c) 12;
     sextet (group24 a b c) 6; sextet (group24 a b c) 0]
    ++ EncodeToString rest.
Proof. reflexivity. Qed.

Lemma four_heads {A} (x1 x2 x3 x4 y1 y2 y3 y4 : A) (l k : list A) :
  x1 :: x2 :: x3 :: x4 :: l = y1 :: y2 :: y3 :: y4 :: k ->
  x1 = y1 /\ x2 = y2 /\ x3 = y3 /\ x4 = y4 /\ l = k.
Proof. intros [= -> -> -> -> ->]. repeat split. Qed.

Lemma EncodeToString_inj (s1 s2 : bytes) :
  EncodeToString s1 = EncodeToString s2 -> s1 = s2.
Proof.
  revert s2. induction s1 as [|a|a b|a b c rest IH] using by_triples;
    intros [|a' [|b' [|c' rest']]];
    rewrite ?EncodeToString_one, ?EncodeToString_two, ?EncodeToString_three;
    try discriminate; try reflexivity.
  all: intros Heq; apply four_heads in Heq as (H18 & H12 & H6 & H0 & Htail).
  all: try (exfalso; first
              [ exact (sextet_not_pad _ _ H6)
              | exact (sextet_not_pad _ _ (eq_sym H6))
              | exact (sextet_not_pad _ _ H0)
              | exact (sextet_not_pad _ _ (eq_sym H0)) ]).
  - pose proof (sextet_low_zero a x00) as [Z0 Z6].
    pose proof (sextet_low_zero a' x00) as [Z0' Z6'].
    destruct (group24_inj a x00 x00 a' x00 x00) as (-> & _).
    { apply sextets_determine; try apply group24_range; congruence. }
    reflexivity.
  - pose proof (sextet_low_zero a b) as [Z0 _].
    pose proof (sextet_low_zero a' b') as [Z0' _].
    destruct (group24_inj a b x00 a' b' x00) as (-> & -> & _).
    { apply sextets_determine; try apply group24_range; congruence. }
    reflexivity.
  - destruct (group24_inj a b c a' b' c') as (-> & -> & ->).
    { apply sextets_determine; try apply group24_range; assumption. }
    f_equal. f_equal. f_equal. apply IH. exact Htail.
Qed.

(** X16. The URL determines the digest: two keys get the same URL only if
    the SHA-256 digests of their modulus and exponent bytes are the same. *)
Theorem intelEKURL_determines_digest `{Libraries} (k1 k2 : PublicKey) :
  intelEKURL k1 = intelEKURL k2 ->
  sha256_Sum256 (big_Int_Bytes (N k1) ++ [x01; x00; x01])
  = sha256_Sum256 (big_Int_Bytes (N k2) ++ [x01; x00; x01]).
Proof.
  unfold intelEKURL, hash_Sum, hash_Write, sha256_New. cbn [written app].
  intros Heq. apply app_inv_head in Heq. apply EncodeToString_inj. exact Heq.
Qed.

Lemma intelEKURL_determines_digest_witness :
  sha256_Sum256 (Libraries := Bench.benchLibraries)
    (big_Int_Bytes 0x010203 ++ [x01; x00; x01])
  = sha256_Sum256 (Libraries := Bench.benchLibraries)
      (big_Int_Bytes (- 0x010203) ++ [x01; x00; x01]).
Proof.
  exact (intelEKURL_determines_digest (H := Bench.benchLibraries)
           {| N := 0x010203; E := 65537 |} {| N := - 0x010203; E := 3 |}
           eq_refl).
Defined.
